(** * Smart File Renamer: a shallow embedding of [smart_filing_system.py]

    The development follows the Python class [SmartFilingSystem]:
    - strings are byte strings ([string]); [str.lower] is the ASCII lower
      casing and string comparison is by character code;
    - a [pathlib.Path] is the list of its components below the root of the
      modelled file system (POSIX flavour; [..] and symbolic links are not
      interpreted);
    - the file system is a finite tree whose directories keep their entries
      in the order [iterdir] lists them;
    - [print] appends a message to a log, and the library operations that
      the class calls without defining them ([str.format], [shutil.copy2],
      [shutil.move]) are parameters of the organizer ([Lib]); [Posix.lib] is
      a POSIX-like instance of them, used for the concrete runs. *)

From Stdlib Require Import Ascii.
From Stdlib Require String DecimalString.
From Stdlib Require Import Sorting.Sorted Sorting.Permutation.
From stdpp Require Import base list strings gmap sorting.

(* ================================================================== *)
(** * Strings *)

Module Str.

(** Character code of a character. *)
Definition code (c : ascii) : nat := nat_of_ascii c.

Definition codes (s : string) : list nat :=
  map code (String.list_ascii_of_string s).

(** [str.lower] on ASCII: A..Z go to a..z, everything else is kept.
    Python lower-cases letters outside ASCII as well; the strings here
    are byte strings, and what is proved about lower-casing is stated for
    ASCII extensions. *)
Definition lower_ascii (c : ascii) : ascii :=
  if (65 <=? code c)%nat && (code c <=? 90)%nat
  then ascii_of_nat (code c + 32) else c.

Fixpoint lower (s : string) : string :=
  match s with
  | EmptyString => EmptyString
  | String c s' => String (lower_ascii c) (lower s')
  end.

(** [s.lstrip(ch)] for a one-character argument: every leading [ch] goes. *)
Fixpoint lstrip (ch : ascii) (s : string) : string :=
  match s with
  | EmptyString => EmptyString
  | String c s' => if Ascii.eqb c ch then lstrip ch s' else s
  end.

(** [s.rfind(ch)]: index of the last [ch]; [None] stands for Python's -1. *)
Fixpoint rfind (ch : ascii) (s : string) : option nat :=
  match s with
  | EmptyString => None
  | String c s' =>
      match rfind ch s' with
      | Some i => Some (S i)
      | None => if Ascii.eqb c ch then Some 0 else None
      end
  end.

(** [s[i:]] *)
Fixpoint drop (i : nat) (s : string) : string :=
  match i, s with
  | O, _ => s
  | S _, EmptyString => EmptyString
  | S i', String _ s' => drop i' s'
  end.

(** [s.startswith(ch)] for a one-character argument. *)
Definition starts_with (ch : ascii) (s : string) : bool :=
  match s with
  | String c _ => Ascii.eqb c ch
  | EmptyString => false
  end.

(** [s.split(ch)] *)
Fixpoint split (ch : ascii) (s : string) : list string :=
  match s with
  | EmptyString => [EmptyString]
  | String c s' =>
      if Ascii.eqb c ch then EmptyString :: split ch s'
      else match split ch s' with
           | w :: ws => String c w :: ws
           | [] => [String c EmptyString]
           end
  end.

End Str.

(** Lexicographic comparison of two sequences, as Python compares [str]
    (sequences of character codes) and [list] (sequences of elements). *)
Fixpoint lex_compare {A : Type} (cmp : A -> A -> comparison)
    (l1 l2 : list A) : comparison :=
  match l1, l2 with
  | [], [] => Eq
  | [], _ :: _ => Lt
  | _ :: _, [] => Gt
  | x :: l1', y :: l2' =>
      match cmp x y with
      | Eq => lex_compare cmp l1' l2'
      | c => c
      end
  end.

(** [a < b] on [str]. *)
Definition str_compare (a b : string) : comparison :=
  lex_compare Nat.compare (Str.codes a) (Str.codes b).

Definition str_ltb (a b : string) : bool :=
  match str_compare a b with Lt => true | _ => false end.

(* ================================================================== *)
(** * Paths *)

(** A [Path]: its components, outermost first. *)
Definition path : Type := list string.

(** [path.name]: the last component. *)
Definition name (p : path) : string := List.last p "".

(** [PurePath.suffix]:
<<
    name = self.name
    i = name.rfind('.')
    if 0 < i < len(name) - 1: return name[i:]
    else: return ''
>> *)
Definition suffix_of_name (nm : string) : string :=
  match Str.rfind "."%char nm with
  | Some i =>
      if (0 <? i)%nat && (i <? String.length nm - 1)%nat
      then Str.drop i nm else ""
  | None => ""
  end.

Definition suffix (p : path) : string := suffix_of_name (name p).

(** [item.suffix.lstrip('.').lower()], the key of an extension group. *)
Definition extension_of_name (nm : string) : string :=
  Str.lower (Str.lstrip "."%char (suffix_of_name nm)).

Definition extension (p : path) : string := extension_of_name (name p).

(** [extension.lstrip('.').lower()] of [set_naming_pattern]. *)
Definition normalize_extension (extension : string) : string :=
  Str.lower (Str.lstrip "."%char extension).

(** [folder / filename] for a [str] right operand: the operand is split at
    the separators, empty and [.] components are dropped, and an operand
    that starts with the separator replaces the left path. *)
Definition components (s : string) : list string :=
  List.filter (fun c => negb (String.eqb c "" || String.eqb c "."))
    (Str.split "/"%char s).

Definition joinpath (folder : path) (filename : string) : path :=
  if Str.starts_with "/"%char filename then components filename
  else folder ++ components filename.

(** [str(path)]: the components joined by the separator. *)
Definition path_str (p : path) : string :=
  String.concat "/" p.

(** [Path.__lt__] compares the component lists, each component as a [str]. *)
Definition path_compare (p q : path) : comparison :=
  lex_compare str_compare p q.

Definition path_ltb (p q : path) : bool :=
  match path_compare p q with Lt => true | _ => false end.

(** [files.sort()]: a stable sort that only asks [<]. *)
Fixpoint insert_sorted {A : Type} (ltb : A -> A -> bool) (x : A)
    (l : list A) : list A :=
  match l with
  | [] => [x]
  | y :: l' => if ltb y x then y :: insert_sorted ltb x l' else x :: y :: l'
  end.

Fixpoint sort_by {A : Type} (ltb : A -> A -> bool) (l : list A) : list A :=
  match l with
  | [] => []
  | x :: l' => insert_sorted ltb x (sort_by ltb l')
  end.

Definition sort_paths (files : list path) : list path := sort_by path_ltb files.

(** [enumerate(files, start)] *)
Fixpoint enumerate {A : Type} (start : nat) (l : list A) : list (nat * A) :=
  match l with
  | [] => []
  | x :: l' => (start, x) :: enumerate (S start) l'
  end.

(* ================================================================== *)
(** * The file system *)

(** What a path can name: a regular file with its contents, a directory
    with its entries in listing order, or something that is neither
    (a device, a socket, a FIFO). *)
#[warnings="-register-all"]
Inductive node : Type :=
  | File (data : string)
  | Dir (entries : list (string * node))
  | Other.

Fixpoint assoc (nm : string) (es : list (string * node)) : option node :=
  match es with
  | [] => None
  | (k, n) :: es' => if String.eqb k nm then Some n else assoc nm es'
  end.

(** Replace the entry called [nm], or add it at the end of the listing. *)
Fixpoint set_entry (nm : string) (new : node) (es : list (string * node))
    : list (string * node) :=
  match es with
  | [] => [(nm, new)]
  | (k, n) :: es' =>
      if String.eqb k nm then (k, new) :: es' else (k, n) :: set_entry nm new es'
  end.

Fixpoint del_entry (nm : string) (es : list (string * node))
    : list (string * node) :=
  match es with
  | [] => []
  | (k, n) :: es' =>
      if String.eqb k nm then del_entry nm es' else (k, n) :: del_entry nm es'
  end.

(** The node a path names, from the root [fs]. *)
Fixpoint lookup_path (fs : node) (p : path) {struct p} : option node :=
  match p with
  | [] => Some fs
  | nm :: p' =>
      match fs with
      | Dir es =>
          match assoc nm es with
          | Some c => lookup_path c p'
          | None => None
          end
      | _ => None
      end
  end.

(** What [os.stat] tells about a path: the kind, and for a regular file
    its contents. *)
Inductive stat_result : Type :=
  | SFile (data : string)
  | SDir
  | SOther.

Definition stat (fs : node) (p : path) : option stat_result :=
  match lookup_path fs p with
  | Some (File d) => Some (SFile d)
  | Some (Dir _) => Some SDir
  | Some Other => Some SOther
  | None => None
  end.

(** [Path.exists()], [Path.is_file()], [Path.is_dir()] *)
Definition path_exists (fs : node) (p : path) : bool :=
  match lookup_path fs p with Some _ => true | None => false end.

Definition is_file (fs : node) (p : path) : bool :=
  match lookup_path fs p with Some (File _) => true | _ => false end.

Definition is_dir (fs : node) (p : path) : bool :=
  match lookup_path fs p with Some (Dir _) => true | _ => false end.

(** Exceptions the modelled calls raise; all are subclasses of
    [Exception]. *)
Inductive exn : Type :=
  | ValueError | IndexError | KeyError
  | FileNotFoundError | FileExistsError | NotADirectoryError
  | IsADirectoryError | PermissionError | SameFileError
  | SpecialFileError | ShutilError | OSError.

(** A directory tree is well formed when no directory lists a name twice. *)
Fixpoint wf_node (n : node) : Prop :=
  match n with
  | Dir es =>
      NoDup (map fst es) /\
      (fix wf_entries (l : list (string * node)) : Prop :=
         match l with
         | [] => True
         | e :: l' => wf_node e.2 /\ wf_entries l'
         end) es
  | _ => True
  end.

(** [Path.mkdir(parents=True)].  The tree has neither permissions nor
    symbolic links, so of the ways [mkdir] can fail only a non-directory
    on the way is modelled; [PermissionError] and the errors of a
    dangling link have no counterpart, and nothing below is concluded
    from their absence. *)
Fixpoint make_chain (p : path) : node :=
  match p with
  | [] => Dir []
  | nm :: p' => Dir [(nm, make_chain p')]
  end.

Fixpoint mkdir_parents (fs : node) (p : path) {struct p} : exn + node :=
  match p with
  | [] => inl FileExistsError
  | nm :: p' =>
      match fs with
      | Dir es =>
          match assoc nm es with
          | Some c =>
              match mkdir_parents c p' with
              | inr c' => inr (Dir (set_entry nm c' es))
              | inl e => inl e
              end
          | None => inr (Dir (es ++ [(nm, make_chain p')]))
          end
      | _ => inl NotADirectoryError
      end
  end.

(* ================================================================== *)
(** * Discovery: [_get_files_by_extension] *)

(** [files_by_ext]: a [dict] from extension to list of paths, in insertion
    order. *)
Definition groups : Type := list (string * list path).

(** [if ext not in d: d[ext] = []] followed by [d[ext].extend(files)] *)
Fixpoint extend_group (ext : string) (files : list path) (d : groups)
    : groups :=
  match d with
  | [] => [(ext, files)]
  | (k, fs) :: d' =>
      if String.eqb k ext then (k, fs ++ files) :: d'
      else (k, fs) :: extend_group ext files d'
  end.

(** [d[ext].append(item)] after the same guard. *)
Definition append_group (ext : string) (item : path) (d : groups) : groups :=
  extend_group ext [item] d.

(** The first loop: the regular files of the current folder. *)
Fixpoint scan_files (source_folder : path) (es : list (string * node))
    (files_by_ext : groups) : groups :=
  match es with
  | [] => files_by_ext
  | (nm, File _) :: es' =>
      scan_files source_folder es'
        (append_group (extension_of_name nm) (source_folder ++ [nm]) files_by_ext)
  | _ :: es' => scan_files source_folder es' files_by_ext
  end.

(** [for ext, files in subfolders_files.items(): ...extend(files)] *)
Fixpoint merge_groups (subfolders_files : groups) (files_by_ext : groups)
    : groups :=
  match subfolders_files with
  | [] => files_by_ext
  | (ext, files) :: rest => merge_groups rest (extend_group ext files files_by_ext)
  end.

(** The body of [_get_files_by_extension] on the directory [dir] found at
    [source_folder]: both loops go through the entries in listing order
    ([iterdir]), and an entry is a file or a directory as its own node
    says ([is_file], [is_dir] of its path).  The recursion follows the
    tree, as the recursive call on each subfolder does. *)
Fixpoint discover (source_folder : path) (dir : node) (recursive : bool)
    {struct dir} : groups :=
  match dir with
  | Dir es =>
      let files_by_ext := scan_files source_folder es [] in
      if recursive then
        (fix subfolders (l : list (string * node)) (files_by_ext : groups)
           {struct l} : groups :=
           match l with
           | [] => files_by_ext
           | (nm, c) :: l' =>
               match c with
               | Dir _ =>
                   subfolders l'
                     (merge_groups (discover (source_folder ++ [nm]) c recursive)
                        files_by_ext)
               | _ => subfolders l' files_by_ext
               end
           end) es files_by_ext
      else files_by_ext
  | _ => []
  end.

(** [_get_files_by_extension]: [iterdir] raises when the folder is not a
    directory. *)
Definition _get_files_by_extension (fs : node) (source_folder : path)
    (recursive : bool) : exn + groups :=
  match lookup_path fs source_folder with
  | Some (Dir es) => inr (discover source_folder (Dir es) recursive)
  | Some _ => inl NotADirectoryError
  | None => inl FileNotFoundError
  end.

(* ================================================================== *)
(** * Library operations and effects *)

(** The operations the class calls and does not define.  Each one may
    raise; [copy2] and [move] also return the file system they leave. *)
Class Lib : Type := {
  (** [pattern.format(i)] *)
  format : string -> nat -> exn + string;
  (** [shutil.copy2(str(src), str(dst))] *)
  copy2 : node -> path -> path -> option exn * node;
  (** [shutil.move(str(src), str(dst))] *)
  move : node -> path -> path -> option exn * node
}.

(** The lines [print] writes. *)
Inductive message : Type :=
  | MsgNoFolder (source_folder : path)
  | MsgMoved (source_path new_path : path)
  | MsgCopied (source_path new_path : path)
  | MsgError (source_path : path) (e : exn).

(** The world a call runs in: the file system and what was printed. *)
Record world : Type := World { w_fs : node; w_out : list message }.

Inductive outcome (A : Type) : Type :=
  | Returned (a : A)
  | Raised (e : exn).
Arguments Returned {A} a.
Arguments Raised {A} e.

(** A computation that reads and changes the world and returns or raises;
    what it did before raising stays done. *)
Definition M (A : Type) : Type := world -> outcome A * world.

Definition ret {A : Type} (a : A) : M A := fun w => (Returned a, w).

Definition bind {A B : Type} (m : M A) (k : A -> M B) : M B :=
  fun w =>
    match m w with
    | (Returned a, w') => k a w'
    | (Raised e, w') => (Raised e, w')
    end.

Notation "x <- m ;; k" := (bind m (fun x => k))
  (at level 20, m at level 99, k at level 200, only parsing).
Notation "m >> k" := (bind m (fun _ => k))
  (at level 100, k at level 200, only parsing, right associativity).

Definition raise {A : Type} (e : exn) : M A := fun w => (Raised e, w).

Definition print (m : message) : M unit :=
  fun w => (Returned tt, World (w_fs w) (w_out w ++ [m])).

Definition get_fs : M node := fun w => (Returned (w_fs w), w).

(** Run a library call that returns a value or raises. *)
Definition lift {A : Type} (r : exn + A) : M A :=
  match r with
  | inr a => ret a
  | inl e => raise e
  end.

(** Run a library call that changes the file system. *)
Definition shutil (op : node -> option exn * node) : M unit :=
  fun w =>
    match op (w_fs w) with
    | (None, fs') => (Returned tt, World fs' (w_out w))
    | (Some e, fs') => (Raised e, World fs' (w_out w))
    end.

(** [try: body  except Exception as e: handler(e)] *)
Definition try_except {A : Type} (body : M A) (handler : exn -> M A) : M A :=
  fun w =>
    match body w with
    | (Returned a, w') => (Returned a, w')
    | (Raised e, w') => handler e w'
    end.

(** [for x in l: s = body(s, x)] *)
Fixpoint for_each {A S : Type} (l : list A) (body : S -> A -> M S) (s : S)
    : M S :=
  match l with
  | [] => ret s
  | x :: l' => s' <- body s x ;; for_each l' body s'
  end.

(* ================================================================== *)
(** * The organizer: [SmartFilingSystem] *)

Record organizer : Type := Organizer {
  folder_path : path;
  naming_patterns : gmap string string;
  default_pattern : string
}.

(** [__init__] *)
Definition init (folder : path) : M organizer :=
  fs <- get_fs ;;
  (if path_exists fs folder then ret tt
   else shutil (fun fs =>
          match mkdir_parents fs folder with
          | inr fs' => (None, fs')
          | inl e => (Some e, fs)
          end)) >>
  ret (Organizer folder ∅ "file_{:02d}").

(** [set_naming_pattern] *)
Definition set_naming_pattern (self : organizer) (extension pattern : string)
    : organizer :=
  let extension := Str.lstrip "."%char extension in
  Organizer (folder_path self)
    (<[Str.lower extension := pattern]> (naming_patterns self))
    (default_pattern self).

(** [set_default_pattern] *)
Definition set_default_pattern (self : organizer) (pattern : string)
    : organizer :=
  Organizer (folder_path self) (naming_patterns self) pattern.

(** [self.naming_patterns.get(ext, self.default_pattern)] *)
Definition pattern_for (self : organizer) (ext : string) : string :=
  default (default_pattern self) (naming_patterns self !! ext).

(** [counts[ext] = counts.get(ext, 0) + 1] *)
Definition increment (ext : string) (counts : gmap string nat)
    : gmap string nat :=
  <[ext := default 0 (counts !! ext) + 1]> counts.

Section Organize.
Context {L : Lib}.

(** The body of the inner loop of [organize_files], for the file
    [source_path] numbered [i]. *)
Definition organize_file (self : organizer) (move_flag : bool)
    (ext pattern : string) (counts : gmap string nat)
    (item : nat * path) : M (gmap string nat) :=
  let '(i, source_path) := item in
  base <- lift (format pattern i) ;;
  let new_filename := String.append base (suffix source_path) in
  let new_path := joinpath (folder_path self) new_filename in
  try_except
    ((if move_flag
      then shutil (fun fs => move fs source_path new_path) >>
           print (MsgMoved source_path new_path)
      else shutil (fun fs => copy2 fs source_path new_path) >>
           print (MsgCopied source_path new_path)) >>
     ret (increment ext counts))
    (fun e => print (MsgError source_path e) >> ret counts).

(** The body of the outer loop, for one extension group. *)
Definition organize_group (self : organizer) (move_flag : bool)
    (counts : gmap string nat) (group : string * list path)
    : M (gmap string nat) :=
  let '(ext, files) := group in
  let files := sort_paths files in
  let pattern := pattern_for self ext in
  for_each (enumerate 1 files)
    (organize_file self move_flag ext pattern) counts.

(** [organize_files] *)
Definition organize_files (self : organizer) (source_folder : path)
    (recursive move_flag : bool) : M (gmap string nat) :=
  fs <- get_fs ;;
  if negb (path_exists fs source_folder)
  then print (MsgNoFolder source_folder) >> ret ∅
  else
    files_by_ext <-
      lift (_get_files_by_extension fs source_folder recursive) ;;
    for_each files_by_ext (organize_group self move_flag) ∅.

(** A client of the class: the three public methods, called in any
    order.  A call that raises leaves the organizer as it was. *)
Inductive call : Type :=
  | SetNamingPattern (extension pattern : string)
  | SetDefaultPattern (pattern : string)
  | OrganizeFiles (source_folder : path) (recursive move_flag : bool).

Definition run_call (st : organizer * world) (c : call)
    : organizer * world :=
  let '(self, w) := st in
  match c with
  | SetNamingPattern extension pattern =>
      (set_naming_pattern self extension pattern, w)
  | SetDefaultPattern pattern => (set_default_pattern self pattern, w)
  | OrganizeFiles source_folder recursive move_flag =>
      (self, (organize_files self source_folder recursive move_flag w).2)
  end.

Definition run_calls (st : organizer * world) (cs : list call)
    : organizer * world :=
  foldl run_call st cs.

End Organize.

(* ================================================================== *)
(** * A POSIX-like instance of the library operations *)

(** [write_path fs p new] puts [new] at [p]; the parent of [p] has to be a
    directory. *)
Fixpoint write_path (fs : node) (p : path) (new : node) {struct p}
    : option node :=
  match p with
  | [] => Some new
  | nm :: p' =>
      match fs with
      | Dir es =>
          match assoc nm es with
          | Some c =>
              match write_path c p' new with
              | Some c' => Some (Dir (set_entry nm c' es))
              | None => None
              end
          | None =>
              match p' with
              | [] => Some (Dir (es ++ [(nm, new)]))
              | _ => None
              end
          end
      | _ => None
      end
  end.

(** [remove_path fs p] unlinks the entry at [p]. *)
Fixpoint remove_path (fs : node) (p : path) {struct p} : option node :=
  match p with
  | [] => None
  | nm :: p' =>
      match fs with
      | Dir es =>
          match assoc nm es with
          | Some c =>
              match p' with
              | [] => Some (Dir (del_entry nm es))
              | _ =>
                  match remove_path c p' with
                  | Some c' => Some (Dir (set_entry nm c' es))
                  | None => None
                  end
              end
          | None => None
          end
      | _ => None
      end
  end.

Module Posix.

(** The system resolves a path one component at a time.  The component
    [..] steps back to the parent of the directory reached so far (the
    root is its own parent); it is refused when what was reached is not a
    directory.  Other components are appended as they are: the tree has no
    symbolic links.  A path without [..] resolves to itself. *)
Fixpoint resolve_from (fs : node) (cur p : path) {struct p} : exn + path :=
  match p with
  | [] => inr cur
  | nm :: p' =>
      if String.eqb nm ".." then
        match lookup_path fs cur with
        | Some (Dir _) => resolve_from fs (removelast cur) p'
        | Some _ => inl NotADirectoryError
        | None => inl FileNotFoundError
        end
      else resolve_from fs (cur ++ [nm]) p'
  end.

Definition resolve (fs : node) (p : path) : exn + path :=
  resolve_from fs [] p.

(** The error of a system call on a path that has no parent directory:
    [NotADirectoryError] when a component above it is not a directory,
    [FileNotFoundError] when one is missing. *)
Fixpoint path_error (fs : node) (p : path) {struct p} : exn :=
  match p with
  | [] => FileNotFoundError
  | nm :: p' =>
      match fs with
      | Dir es =>
          match assoc nm es with
          | Some c => path_error c p'
          | None => FileNotFoundError
          end
      | _ => NotADirectoryError
      end
  end.

(** [shutil.copy2] of a regular file: a destination that is a directory
    receives the file under its own name; copying a file onto itself is
    refused; the contents replace those of an existing regular file.
    Source and destination are resolved first, so a destination that goes
    through [..] is written where the system would write it. *)
Definition copy2 (fs : node) (src dst : path) : option exn * node :=
  match resolve fs src with
  | inl e => (Some e, fs)
  | inr src' =>
      match lookup_path fs src' with
      | Some (File data) =>
          match resolve fs dst with
          | inl e => (Some e, fs)
          | inr dst' =>
              let real_dst :=
                if is_dir fs dst' then dst' ++ [name src] else dst' in
              if decide (real_dst = src') then (Some SameFileError, fs)
              else
                match lookup_path fs real_dst with
                | Some (Dir _) => (Some IsADirectoryError, fs)
                | Some Other => (Some SpecialFileError, fs)
                | _ =>
                    match write_path fs real_dst (File data) with
                    | Some fs' => (None, fs')
                    | None => (Some (path_error fs real_dst), fs)
                    end
                end
          end
      | Some (Dir _) => (Some IsADirectoryError, fs)
      | Some Other => (Some SpecialFileError, fs)
      | None => (Some (path_error fs src'), fs)
      end
  end.

(** [os.rename] of a regular file within one file system, on resolved
    paths; renaming a path to itself does nothing. *)
Definition rename (fs : node) (data : string) (src real_dst : path)
    : option exn * node :=
  if decide (real_dst = src) then (None, fs)
  else
    match lookup_path fs real_dst with
    | Some (Dir _) => (Some IsADirectoryError, fs)
    | _ =>
        match remove_path fs src with
        | Some fs1 =>
            match write_path fs1 real_dst (File data) with
            | Some fs2 => (None, fs2)
            | None => (Some (path_error fs real_dst), fs)
            end
        | None => (Some (path_error fs src), fs)
        end
    end.

(** [shutil.move] of a regular file: a destination that is a directory
    receives the file under its own name unless that name is taken.
    Only regular files are moved by the program (discovery keeps nothing
    else); a source of another kind is refused with [OSError]. *)
Definition move (fs : node) (src dst : path) : option exn * node :=
  match resolve fs src with
  | inl e => (Some e, fs)
  | inr src' =>
      match lookup_path fs src' with
      | Some (File data) =>
          match resolve fs dst with
          | inl e => (Some e, fs)
          | inr dst' =>
              if is_dir fs dst' then
                let real_dst := dst' ++ [name src] in
                if path_exists fs real_dst then (Some ShutilError, fs)
                else rename fs data src' real_dst
              else rename fs data src' dst'
          end
      | Some _ => (Some OSError, fs)
      | None => (Some (path_error fs src'), fs)
      end
  end.

(** ** [str.format] with one integer argument, on the replacement fields
    [{}], [{0}], [{:d}], [{:Nd}], [{:0Nd}] and the escapes [{{], [}}].
    Other field names raise as Python does ([IndexError], [KeyError]);
    format specifications outside this fragment are not modelled and
    are reported as [ValueError]. *)

Definition decimal (n : nat) : string :=
  DecimalString.NilZero.string_of_uint (Nat.to_uint n).

Fixpoint pad (c : ascii) (k : nat) (s : string) : string :=
  match k with
  | O => s
  | S k' => String c (pad c k' s)
  end.

Definition format_int (zero : bool) (width : nat) (n : nat) : string :=
  let d := decimal n in
  pad (if zero then "0" else " ")%char (width - String.length d) d.

Definition is_digit (c : ascii) : bool :=
  (48 <=? Str.code c)%nat && (Str.code c <=? 57)%nat.

(** The number a string of digits denotes; [None] when it has another
    character. *)
Fixpoint digits_value (acc : nat) (l : list ascii) : option nat :=
  match l with
  | [] => Some acc
  | c :: l' =>
      if is_digit c then digits_value (10 * acc + (Str.code c - 48)) l'
      else None
  end.

(** [[0][width][d]] *)
Definition parse_spec (spec : list ascii) : option (bool * nat) :=
  let '(zero, rest) :=
    match spec with
    | c :: rest' =>
        if Ascii.eqb c "0" then (true, rest') else (false, spec)
    | [] => (false, [])
    end in
  let rest :=
    match List.last rest " "%char with
    | "d"%char => List.removelast rest
    | _ => rest
    end in
  match digits_value 0 rest with
  | Some width => Some (zero, width)
  | None => None
  end.

(** Field numbering: not yet chosen, automatic (with the next index),
    or manual. *)
Inductive numbering : Type := Unset | Auto (next : nat) | Manual.

Fixpoint split_colon (l : list ascii) : list ascii * option (list ascii) :=
  match l with
  | [] => ([], None)
  | c :: l' =>
      if Ascii.eqb c ":" then ([], Some l')
      else let '(a, b) := split_colon l' in (c :: a, b)
  end.

(** One replacement field, applied to the only argument [n]. *)
Definition render (body : list ascii) (nb : numbering) (n : nat)
    : exn + (string * numbering) :=
  let '(field_name, spec) := split_colon body in
  let index : exn + (nat * numbering) :=
    match field_name with
    | [] =>
        match nb with
        | Unset => inr (0, Auto 1)
        | Auto k => inr (k, Auto (S k))
        | Manual => inl ValueError
        end
    | _ =>
        match digits_value 0 field_name with
        | Some k =>
            match nb with
            | Auto _ => inl ValueError
            | _ => inr (k, Manual)
            end
        | None => inl KeyError
        end
    end in
  match index with
  | inl e => inl e
  | inr (k, nb') =>
      if (0 <? k)%nat then inl IndexError
      else
        match parse_spec (default [] spec) with
        | Some (zero, width) => inr (format_int zero width n, nb')
        | None => inl ValueError
        end
  end.

Inductive mode : Type := Text | Field (body : list ascii).

Fixpoint scan (l : list ascii) (m : mode) (nb : numbering) (n : nat)
    (out : string) {struct l} : exn + string :=
  match l, m with
  | [], Text => inr out
  | [], Field _ => inl ValueError
  | c :: l', Text =>
      if Ascii.eqb c "{" then
        match l' with
        | c' :: l'' =>
            if Ascii.eqb c' "{" then scan l'' Text nb n (String.append out "{")
            else scan l' (Field []) nb n out
        | [] => inl ValueError
        end
      else if Ascii.eqb c "}" then
        match l' with
        | c' :: l'' =>
            if Ascii.eqb c' "}" then scan l'' Text nb n (String.append out "}")
            else inl ValueError
        | [] => inl ValueError
        end
      else scan l' Text nb n (String.append out (String c EmptyString))
  | c :: l', Field body =>
      if Ascii.eqb c "}" then
        match render body nb n with
        | inr (s, nb') => scan l' Text nb' n (String.append out s)
        | inl e => inl e
        end
      else if Ascii.eqb c "{" then inl ValueError
      else scan l' (Field (body ++ [c])) nb n out
  end.

Definition format (pattern : string) (n : nat) : exn + string :=
  scan (String.list_ascii_of_string pattern) Text Unset n "".

Definition lib : Lib := Build_Lib format copy2 move.

End Posix.

(* ================================================================== *)
(** * What a run plans to do *)

(** The files of a run in processing order, each with its group, the
    pattern of the group and its sequence number. *)
Record job : Type := Job {
  job_ext : string;
  job_pattern : string;
  job_number : nat;
  job_source : path
}.

Definition group_jobs (self : organizer) (group : string * list path)
    : list job :=
  map (fun item => Job group.1 (pattern_for self group.1) item.1 item.2)
    (enumerate 1 (sort_paths group.2)).

Definition plan (self : organizer) (files_by_ext : groups) : list job :=
  flat_map (group_jobs self) files_by_ext.

(** The destination of a job, when its name can be formatted. *)
Definition destination {L : Lib} (self : organizer) (j : job) : option path :=
  match format (job_pattern j) (job_number j) with
  | inr base =>
      Some (joinpath (folder_path self)
              (String.append base (suffix (job_source j))))
  | inl _ => None
  end.

(** The file a message is about, and whether it reports a success. *)
Definition msg_source (m : message) : option path :=
  match m with
  | MsgNoFolder _ => None
  | MsgMoved s _ | MsgCopied s _ | MsgError s _ => Some s
  end.

Definition msg_success (m : message) : bool :=
  match m with
  | MsgMoved _ _ | MsgCopied _ _ => true
  | _ => false
  end.

(** Number of successes reported in [out] for files of extension [ext]. *)
Definition successes (ext : string) (out : list message) : nat :=
  length (List.filter
            (fun m => msg_success m &&
                      match msg_source m with
                      | Some s => String.eqb (extension s) ext
                      | None => false
                      end) out).

(** All the files of the groups, group after group. *)
Definition group_files (d : groups) : list path := concat (map snd d).

(** A regular file that directory descent from [root] reaches: a
    non-empty relative path [rel] leads from the directory to it. *)
Definition reachable_file (dir : node) (root q : path) : Prop :=
  exists rel data, rel <> [] /\ q = root ++ rel /\
                   lookup_path dir rel = Some (File data).


Definition upper_ascii (c : ascii) : ascii :=
  if (97 <=? Str.code c)%nat && (Str.code c <=? 122)%nat
  then ascii_of_nat (Str.code c - 32) else c.





(** The naming-pattern keys [set_naming_pattern] is meant to produce. *)
Definition normalized_key (k : string) : Prop :=
  Str.lower k = k /\ Str.starts_with "."%char k = false.

(** The spec's ordering of a group: by the full path string. *)
Definition path_str_ltb (p q : path) : bool :=
  str_ltb (path_str p) (path_str q).

Definition sort_by_full_path_string (files : list path) : list path :=
  sort_by path_str_ltb files.

(** One job of the plan, run as the inner loop runs it. *)
Definition run_job {L : Lib} (self : organizer) (move_flag : bool)
    (counts : gmap string nat) (j : job) : M (gmap string nat) :=
  organize_file self move_flag (job_ext j) (job_pattern j) counts
    (job_number j, job_source j).

(** The library call of a job and the message of its success. *)
Definition transfer {L : Lib} (move_flag : bool)
    : node -> path -> path -> option exn * node :=
  if move_flag then move else copy2.

Definition msg_done (move_flag : bool) (src dst : path) : message :=
  if move_flag then MsgMoved src dst else MsgCopied src dst.

(** The invariant of the naming-pattern mapping: no key occurs twice and
    every key is lower case without a leading dot. *)
Definition patterns_invariant (self : organizer) : Prop :=
  NoDup (map fst (map_to_list (naming_patterns self))) /\
  forall k, is_Some (naming_patterns self !! k) -> normalized_key k.

(** The entry of the result map for an extension with [n] successes:
    extensions without a success have no entry. *)
Definition count_entry (n : nat) : option nat :=
  match n with
  | O => None
  | S _ => Some n
  end.

(** The second loop of [_get_files_by_extension] for one entry: the files
    of a subfolder are merged into the groups found so far. *)
Definition visit_subfolder (source_folder : path) (recursive : bool)
    (files_by_ext : groups) (e : string * node) : groups :=
  match e.2 with
  | Dir _ => merge_groups (discover (source_folder ++ [e.1]) e.2 recursive)
               files_by_ext
  | _ => files_by_ext
  end.

(** The regular files below a directory, entry after entry: the reference
    the groups of a recursive discovery are compared with. *)
Fixpoint all_files (folder : path) (n : node) {struct n} : list path :=
  match n with
  | Dir es =>
      flat_map (fun e =>
                  match e.2 with
                  | File _ => [folder ++ [e.1]]
                  | Dir _ => all_files (folder ++ [e.1]) e.2
                  | Other => []
                  end) es
  | _ => []
  end.

(** The regular files directly in a directory. *)
Definition files_here (folder : path) (es : list (string * node)) : list path :=
  flat_map (fun e => match e.2 with
                     | File _ => [folder ++ [e.1]]
                     | _ => []
                     end) es.

Definition group_keys (d : groups) : list string := map fst d.

(** Every file of a group has the group's key as its extension. *)
Definition groups_by_extension (d : groups) : Prop :=
  Forall (fun g => Forall (fun f => extension f = g.1) g.2) d.

(** The regular files one entry of a directory contributes. *)
Definition entry_files (folder : path) (e : string * node) : list path :=
  match e.2 with
  | File _ => [folder ++ [e.1]]
  | Dir _ => all_files (folder ++ [e.1]) e.2
  | Other => []
  end.

Definition subfolder_files (folder : path) (e : string * node) : list path :=
  match e.2 with
  | Dir _ => all_files (folder ++ [e.1]) e.2
  | _ => []
  end.

(** What the sort relies on from a three-way comparison. *)
Class Order {A : Type} (cmp : A -> A -> comparison) : Prop := {
  cmp_refl : forall a, cmp a a = Eq;
  cmp_eq : forall a b, cmp a b = Eq -> a = b;
  cmp_antisym : forall a b, cmp b a = CompOpp (cmp a b);
  cmp_trans : forall a b c, cmp a b = Lt -> cmp b c = Lt -> cmp a c = Lt
}.

Definition ltb_of {A : Type} (cmp : A -> A -> comparison) (a b : A) : bool :=
  match cmp a b with Lt => true | _ => false end.

(** [a <= b], as the sort sees it: not [b < a]. *)
Definition le_of {A : Type} (cmp : A -> A -> comparison) : relation A :=
  fun a b => ltb_of cmp b a = false.

(** The order [files.sort()] puts paths in. *)
Definition path_le : relation path := le_of path_compare.

(** A path is plain when none of its components is the parent entry
    [..]: then the list of its components is also the way the system
    walks it, and two plain paths name the same entry only when they are
    the same list. *)
Definition plain (p : path) : Prop := Forall (fun c => c <> "..") p.

(** What the properties of a run on the file system take from the library,
    for plain paths: [copy2] changes nothing outside its destination,
    [move] changes nothing outside its source and its destination, and
    after a [move] that returns the source is gone, unless the
    destination is the source or lies above it.  Nothing is asked of the
    library on a path that goes through [..]. *)
Class LibFrames (L : Lib) : Prop := {
  copy2_frame : forall fs src dst q,
    plain dst -> plain q ->
    ~ dst `prefix_of` q -> stat (copy2 fs src dst).2 q = stat fs q;
  move_frame : forall fs src dst q,
    plain src -> plain dst -> plain q ->
    ~ dst `prefix_of` q -> ~ src `prefix_of` q ->
    stat (move fs src dst).2 q = stat fs q;
  move_gone : forall fs src dst fs',
    plain src -> plain dst ->
    move fs src dst = (None, fs') -> ~ dst `prefix_of` src ->
    stat fs' src = None
}.


(* ================================================================== *)
(** * Concrete file systems and organizers *)

(** The entries of the source folder of the running example. *)
Definition scenario_src : list (string * node) :=
  [("b.txt", File "B"); ("c.jpg", File "C"); ("a.txt", File "A");
   ("sub", Dir [("d.txt", File "D")])].

Definition scenario_fs : node :=
  Dir [("src", Dir scenario_src); ("out", Dir [])].

Definition scenario_self : organizer :=
  set_naming_pattern (Organizer ["out"] ∅ "file_{:02d}") "jpg" "img_{:02d}".

(** An organizer whose pattern for [jpg] lacks its closing brace. *)
Definition broken_self : organizer :=
  set_naming_pattern (Organizer ["out"] ∅ "file_{:02d}") "jpg" "img_{:02d".

(** A source folder that lists a picture before a text file. *)
Definition pictures_src : list (string * node) :=
  [("c.jpg", File "C"); ("a.txt", File "A")].

Definition pictures_fs : node :=
  Dir [("src", Dir pictures_src); ("out", Dir [])].

(** Two subfolders whose names differ after a common prefix. *)
Definition nested_src : list (string * node) :=
  [("sub", Dir [("y.txt", File "Y")]); ("sub.bak", Dir [("x.txt", File "X")])].

Definition nested_fs : node :=
  Dir [("r", Dir nested_src); ("out", Dir [])].




(** A target folder inside the source folder, with a pattern that leaves
    it through [..]. *)
Definition parent_fs : node :=
  Dir [("src", Dir [("a.txt", File "A"); ("b.txt", File "B");
                    ("out", Dir [])])].

Definition parent_self : organizer := Organizer ["src"; "out"] ∅ "../b".

(** The running example with a FIFO where the first text file would go. *)
Definition blocked_fs : node :=
  Dir [("src", Dir scenario_src); ("out", Dir [("file_01.txt", Other)])].

(** Tactics for the concrete runs: well-formedness of a given tree, and
    the cases of membership in a given list. *)
Ltac solve_wf :=
  repeat (simpl; split); try exact I;
  try (apply (bool_decide_unpack _); vm_compute; exact I).

Ltac enum_elem H :=
  repeat (apply elem_of_cons in H as [H|H]; [subst|]);
  try (by apply elem_of_nil in H).

(* ================================================================== *)
(** * The command line: [main] *)

(** What [parser.parse_args()] returns: [--target], [--source], the
    [--pattern EXT PATTERN] pairs in the order given ([None] when the
    option is absent), [--default], [--move] and [--recursive]. *)
Record cli_args : Type := CliArgs {
  args_target : path;
  args_source : path;
  args_pattern : option (list (string * string));
  args_default : option string;
  args_move : bool;
  args_recursive : bool
}.

(** The two [if] blocks of [main] that set the patterns: a default that
    is absent or empty is skipped, then the pairs are registered in
    order. *)
Definition configure (filing_system : organizer) (args : cli_args)
    : organizer :=
  let filing_system :=
    match args_default args with
    | Some pattern =>
        if String.eqb pattern "" then filing_system
        else set_default_pattern filing_system pattern
    | None => filing_system
    end in
  match args_pattern args with
  | Some pairs =>
      foldl (fun fsys ep => set_naming_pattern fsys ep.1 ep.2)
        filing_system pairs
  | None => filing_system
  end.

(** [main], from the parsed arguments on.  It returns the map whose
    entries the summary loop prints. *)
Definition main {L : Lib} (args : cli_args) : M (gmap string nat) :=
  filing_system <- init (args_target args) ;;
  organize_files (configure filing_system args) (args_source args)
    (args_recursive args) (args_move args).

(** The file name a job is given: [pattern.format(i) + source_path.suffix]. *)
Definition new_filename {L : Lib} (j : job) : option string :=
  match format (job_pattern j) (job_number j) with
  | inr base => Some (String.append base (suffix (job_source j)))
  | inl _ => None
  end.

(** The last pattern of the pairs registered for the key [k]. *)
Fixpoint last_registered (k : string) (pairs : list (string * string))
    : option string :=
  match pairs with
  | [] => None
  | (e, p) :: pairs' =>
      match last_registered k pairs' with
      | Some p' => Some p'
      | None => if String.eqb (normalize_extension e) k then Some p else None
      end
  end.

(** The running example with a regular file where the target's parent
    should be. *)
Definition file_in_the_way_fs : node :=
  Dir [("src", Dir scenario_src); ("out", File "not a folder")].

Definition scenario_args : cli_args :=
  CliArgs ["new"; "out"] ["src"]
    (Some [("JPG", "pic_{}"); ("txt", "note_{:02d}"); (".jpg", "img_{:02d}")])
    (Some "doc_{:03d}") false false.

(** The jobs of a list that belong to the group of [ext]. *)
Definition jobs_of_ext (ext : string) (jobs : list job) : list job :=
  List.filter (fun j => String.eqb (job_ext j) ext) jobs.

(* ================================================================== *)
(** * Properties *)

Example suffix_examples :
  suffix_of_name "A.JPG" = ".JPG" /\ suffix_of_name ".bashrc" = "" /\
  suffix_of_name "a.tar.gz" = ".gz" /\ suffix_of_name "a." = "" /\
  suffix_of_name "README" = "" /\ extension_of_name "A.JPG" = "jpg".
Proof. repeat split; reflexivity. Qed.

Example joinpath_examples :
  joinpath ["out"] "file_01.txt" = ["out"; "file_01.txt"] /\
  joinpath ["out"] "a/b.txt" = ["out"; "a"; "b.txt"] /\
  joinpath ["out"] "/tmp/b.txt" = ["tmp"; "b.txt"] /\
  joinpath ["out"] "" = ["out"].
Proof. repeat split; reflexivity. Qed.

Example sort_examples :
  sort_paths [["r"; "sub.bak"; "x.txt"]; ["r"; "sub"; "y.txt"]; ["r"; "a.txt"]]
  = [["r"; "a.txt"]; ["r"; "sub"; "y.txt"]; ["r"; "sub.bak"; "x.txt"]].
Proof. reflexivity. Qed.

Example format_examples :
  Posix.format "file_{:02d}" 1 = inr "file_01" /\
  Posix.format "img_{:02d}" 12 = inr "img_12" /\
  Posix.format "{:3d}_{{x}}" 7 = inr "  7_{x}" /\
  Posix.format "{0:03d}.{0}" 7 = inr "007.7" /\
  Posix.format "file_{:02d" 1 = inl ValueError /\
  Posix.format "file_}" 1 = inl ValueError /\
  Posix.format "{}_{}" 1 = inl IndexError /\
  Posix.format "{num:02d}" 1 = inl KeyError /\
  Posix.format "plain" 5 = inr "plain".
Proof. repeat split; reflexivity. Qed.

Example scenario_run :
  organize_files (L := Posix.lib) scenario_self ["src"] false false
    (World scenario_fs [])
  = (Returned {[ "txt" := 2; "jpg" := 1 ]},
     World (Dir [("src", Dir scenario_src);
                 ("out", Dir [("file_01.txt", File "A"); ("file_02.txt", File "B");
                              ("img_01.jpg", File "C")])])
       [MsgCopied ["src"; "a.txt"] ["out"; "file_01.txt"];
        MsgCopied ["src"; "b.txt"] ["out"; "file_02.txt"];
        MsgCopied ["src"; "c.jpg"] ["out"; "img_01.jpg"]]).
Proof. vm_compute. reflexivity. Qed.

(* ------------------------------------------------------------------ *)
(** ** Strings and extensions *)

Lemma lower_ascii_idemp c : Str.lower_ascii (Str.lower_ascii c) = Str.lower_ascii c.
Proof. destruct c as [[] [] [] [] [] [] [] []]; reflexivity. Qed.

Lemma lower_ascii_dot c :
  Ascii.eqb (Str.lower_ascii c) "." = Ascii.eqb c ".".
Proof. destruct c as [[] [] [] [] [] [] [] []]; reflexivity. Qed.

Lemma lower_idemp s : Str.lower (Str.lower s) = Str.lower s.
Proof.
  induction s as [|c s IH]; simpl; [reflexivity|].
  by rewrite lower_ascii_idemp, IH.
Qed.

Lemma lower_length s : String.length (Str.lower s) = String.length s.
Proof. induction s as [|c s IH]; simpl; congruence. Qed.

Lemma lower_drop i s : Str.drop i (Str.lower s) = Str.lower (Str.drop i s).
Proof.
  revert s; induction i as [|i IH]; intros [|c s]; simpl; auto.
Qed.

Lemma lower_rfind_dot s : Str.rfind "." (Str.lower s) = Str.rfind "." s.
Proof.
  induction s as [|c s IH]; simpl; [reflexivity|].
  by rewrite IH, lower_ascii_dot.
Qed.

Lemma lower_lstrip_dot s :
  Str.lstrip "." (Str.lower s) = Str.lower (Str.lstrip "." s).
Proof.
  induction s as [|c s IH]; simpl; [reflexivity|].
  rewrite lower_ascii_dot. destruct (Ascii.eqb c "."); [exact IH | reflexivity].
Qed.

Lemma lower_suffix nm :
  suffix_of_name (Str.lower nm) = Str.lower (suffix_of_name nm).
Proof.
  unfold suffix_of_name. rewrite lower_rfind_dot, lower_length.
  destruct (Str.rfind "." nm) as [i|]; [|reflexivity].
  destruct (_ && _); [apply lower_drop | reflexivity].
Qed.

Lemma lstrip_no_leading ch s : Str.starts_with ch (Str.lstrip ch s) = false.
Proof.
  induction s as [|c s IH]; simpl; [reflexivity|].
  destruct (Ascii.eqb c ch) eqn:E; [exact IH | exact E].
Qed.

Lemma lower_starts_with_dot s :
  Str.starts_with "." (Str.lower s) = Str.starts_with "." s.
Proof. destruct s as [|c s]; simpl; [reflexivity | apply lower_ascii_dot]. Qed.

Lemma normalize_extension_normalized e : normalized_key (normalize_extension e).
Proof.
  unfold normalized_key, normalize_extension. split.
  - apply lower_idemp.
  - rewrite lower_starts_with_dot. apply lstrip_no_leading.
Qed.

Lemma extension_of_name_lower nm :
  extension_of_name (Str.lower nm) = extension_of_name nm.
Proof.
  unfold extension_of_name.
  by rewrite lower_suffix, lower_lstrip_dot, lower_idemp.
Qed.

Lemma extension_of_name_normalized nm : normalized_key (extension_of_name nm).
Proof. apply (normalize_extension_normalized (suffix_of_name nm)). Qed.

(* ------------------------------------------------------------------ *)
(** ** One step of the monad at a time *)

Lemma bind_ret {A B : Type} (a : A) (k : A -> M B) w : bind (ret a) k w = k a w.
Proof. reflexivity. Qed.

Lemma bind_assoc {A B C : Type} (m : M A) (k : A -> M B) (h : B -> M C) w :
  bind (bind m k) h w = bind m (fun a => bind (k a) h) w.
Proof. unfold bind. destruct (m w) as [[a|e] w']; reflexivity. Qed.

Lemma for_each_app {A S : Type} (l1 l2 : list A) (body : S -> A -> M S) s w :
  for_each (l1 ++ l2) body s w
  = bind (for_each l1 body s) (for_each l2 body) w.
Proof.
  revert s w; induction l1 as [|x l1 IH]; intros s w; simpl.
  - reflexivity.
  - unfold bind. destruct (body s x w) as [[s'|e] w']; [|reflexivity].
    rewrite IH. reflexivity.
Qed.

Lemma for_each_map {A B S : Type} (f : A -> B) (l : list A)
    (body : S -> B -> M S) s w :
  for_each (map f l) body s w = for_each l (fun s a => body s (f a)) s w.
Proof.
  revert s w; induction l as [|x l IH]; intros s w; simpl; [reflexivity|].
  unfold bind. destruct (body s (f x) w) as [[s'|e] w']; [apply IH | reflexivity].
Qed.

Lemma for_each_ext {A S : Type} (l : list A) (body1 body2 : S -> A -> M S) s w :
  (forall s a w, body1 s a w = body2 s a w) ->
  for_each l body1 s w = for_each l body2 s w.
Proof.
  intros Hext. revert s w; induction l as [|x l IH]; intros s w; simpl;
    [reflexivity|].
  unfold bind. rewrite Hext.
  destruct (body2 s x w) as [[s'|e] w']; [apply IH | reflexivity].
Qed.

(* ------------------------------------------------------------------ *)
(** ** The loops of [organize_files] *)

Section Loops.
Context {L : Lib}.
Implicit Types (self : organizer) (w : world) (counts : gmap string nat).

Lemma organize_file_step self mv ext pat counts i src w :
  organize_file self mv ext pat counts (i, src) w =
  match format pat i with
  | inl e => (Raised e, w)
  | inr base =>
      let dst := joinpath (folder_path self) (String.append base (suffix src)) in
      match transfer mv (w_fs w) src dst with
      | (None, fs') =>
          (Returned (increment ext counts),
           World fs' (w_out w ++ [msg_done mv src dst]))
      | (Some e, fs') =>
          (Returned counts, World fs' (w_out w ++ [MsgError src e]))
      end
  end.
Proof.
  unfold organize_file, bind, lift, try_except, shutil, print, ret, raise,
    transfer, msg_done.
  destruct (format pat i) as [e|base]; [reflexivity|]. cbn zeta.
  destruct mv; simpl.
  - destruct (move _ _ _) as [[e|] fs']; reflexivity.
  - destruct (copy2 _ _ _) as [[e|] fs']; reflexivity.
Qed.

Lemma organize_group_jobs self mv counts g w :
  organize_group self mv counts g w
  = for_each (group_jobs self g) (run_job self mv) counts w.
Proof.
  destruct g as [ext files]. unfold organize_group, group_jobs.
  rewrite for_each_map. apply for_each_ext.
  intros s [i src] w'. reflexivity.
Qed.

Lemma organize_groups_plan self mv d counts w :
  for_each d (organize_group self mv) counts w
  = for_each (plan self d) (run_job self mv) counts w.
Proof.
  revert counts w; induction d as [|g d IH]; intros counts w; [reflexivity|].
  unfold plan; simpl. rewrite for_each_app. unfold bind.
  rewrite organize_group_jobs.
  destruct (for_each (group_jobs self g) _ counts w) as [[c'|e] w'];
    [apply IH | reflexivity].
Qed.

Lemma organize_files_dir self src rec mv w es :
  lookup_path (w_fs w) src = Some (Dir es) ->
  organize_files self src rec mv w
  = for_each (plan self (discover src (Dir es) rec)) (run_job self mv) ∅ w.
Proof.
  intros Hdir. unfold organize_files, bind, get_fs, path_exists,
    _get_files_by_extension, lift, ret.
  rewrite Hdir. simpl. apply organize_groups_plan.
Qed.

End Loops.

(* ------------------------------------------------------------------ *)
(** ** The source folder is missing, or is not a directory *)

(** C3. When the source folder does not exist, [organize_files] prints the
    error line, returns the empty result without raising, and leaves the
    whole file system (the target directory included) as it was. *)
Theorem organize_files_missing_source {L : Lib} self src rec mv w :
  path_exists (w_fs w) src = false ->
  organize_files self src rec mv w
  = (Returned ∅, World (w_fs w) (w_out w ++ [MsgNoFolder src])).
Proof.
  intros Hmiss. unfold organize_files, bind, get_fs, print, ret.
  rewrite Hmiss. reflexivity.
Qed.

(** C10. When the source folder exists but is a regular file, the
    directory listing fails and [organize_files] raises
    [NotADirectoryError] to its caller; nothing is printed or written. *)
Theorem organize_files_source_is_file {L : Lib} self src rec mv w data :
  lookup_path (w_fs w) src = Some (File data) ->
  organize_files self src rec mv w = (Raised NotADirectoryError, w).
Proof.
  intros Hfile. unfold organize_files, bind, get_fs, path_exists,
    _get_files_by_extension, lift, raise.
  rewrite Hfile. reflexivity.
Qed.

(* ------------------------------------------------------------------ *)
(** ** The naming-pattern mapping *)

Lemma patterns_invariant_init folder (d : string) :
  patterns_invariant (Organizer folder ∅ d).
Proof.
  split; simpl.
  - rewrite map_to_list_empty. constructor.
  - intros k [v Hv]. by rewrite lookup_empty in Hv.
Qed.

Lemma patterns_invariant_set self e p :
  patterns_invariant self -> patterns_invariant (set_naming_pattern self e p).
Proof.
  intros [_ Hkeys]. split; simpl.
  - apply NoDup_fst_map_to_list.
  - intros k [v Hv].
    destruct (decide (Str.lower (Str.lstrip "." e) = k)) as [<-|Hne].
    + apply normalize_extension_normalized.
    + rewrite lookup_insert_ne in Hv by done. apply Hkeys. by exists v.
Qed.

Lemma patterns_invariant_call {L : Lib} st c :
  patterns_invariant st.1 -> patterns_invariant (run_call st c).1.
Proof.
  destruct st as [self w]. destruct c; simpl; intros Hinv.
  - by apply patterns_invariant_set.
  - exact Hinv.
  - exact Hinv.
Qed.

(** C9. After the constructor and any sequence of [set_naming_pattern],
    [set_default_pattern] and [organize_files] calls, no key of the
    naming-pattern mapping occurs twice, and every key equals its lower-case
    form and does not start with a dot. *)
Theorem naming_patterns_keys_normalized {L : Lib} folder w0 self0 w1 cs :
  init folder w0 = (Returned self0, w1) ->
  patterns_invariant (run_calls (self0, w1) cs).1.
Proof.
  intros Hinit.
  assert (Hinv : patterns_invariant (self0, w1).1).
  { unfold init, bind, get_fs, ret, shutil in Hinit. simpl in Hinit.
    destruct (path_exists (w_fs w0) folder).
    - injection Hinit as <- _. apply patterns_invariant_init.
    - destruct (mkdir_parents (w_fs w0) folder); simpl in Hinit;
        [discriminate|].
      injection Hinit as <- _. apply patterns_invariant_init. }
  clear Hinit. unfold run_calls. generalize dependent (self0, w1).
  induction cs as [|c cs IH]; intros st Hinv; simpl.
  - exact Hinv.
  - apply IH. by apply patterns_invariant_call.
Qed.

(* ------------------------------------------------------------------ *)
(** ** Running the jobs of a plan *)

Section Jobs.
Context {L : Lib}.
Implicit Types (self : organizer) (w : world) (counts : gmap string nat).

Lemma run_job_step self mv counts j w :
  run_job self mv counts j w =
  match format (job_pattern j) (job_number j) with
  | inl e => (Raised e, w)
  | inr base =>
      let dst := joinpath (folder_path self)
                   (String.append base (suffix (job_source j))) in
      match transfer mv (w_fs w) (job_source j) dst with
      | (None, fs') =>
          (Returned (increment (job_ext j) counts),
           World fs' (w_out w ++ [msg_done mv (job_source j) dst]))
      | (Some e, fs') =>
          (Returned counts, World fs' (w_out w ++ [MsgError (job_source j) e]))
      end
  end.
Proof. apply organize_file_step. Qed.

Lemma successes_cons ext m out :
  successes ext (m :: out)
  = (if msg_success m &&
        match msg_source m with
        | Some s => String.eqb (extension s) ext
        | None => false
        end then 1 else 0) + successes ext out.
Proof.
  unfold successes. simpl. destruct (_ && _); reflexivity.
Qed.

Lemma successes_done ext mv src dst out :
  successes ext (msg_done mv src dst :: out)
  = (if String.eqb (extension src) ext then 1 else 0) + successes ext out.
Proof. rewrite successes_cons. destruct mv; reflexivity. Qed.

Lemma successes_error ext src e out :
  successes ext (MsgError src e :: out) = successes ext out.
Proof. rewrite successes_cons. reflexivity. Qed.

Lemma increment_entry ext counts (c0 : string -> nat) :
  (forall k, counts !! k = count_entry (c0 k)) ->
  forall k, increment ext counts !! k
            = count_entry (c0 k + (if String.eqb ext k then 1 else 0)).
Proof.
  intros Hc k. unfold increment.
  destruct (String.eqb_spec ext k) as [->|Hne].
  - rewrite lookup_insert_eq, Hc.
    destruct (c0 k) as [|n]; simpl; [reflexivity|].
    rewrite !Nat.add_1_r. reflexivity.
  - rewrite lookup_insert_ne by done. rewrite Nat.add_0_r. apply Hc.
Qed.

(** Jobs whose names can be formatted all run: each prints one line, in
    order, the loop returns, and the counters grow by the successes. *)
Lemma run_jobs_returns self mv jobs counts w (c0 : string -> nat) :
  Forall (fun j => is_Some (destination self j)) jobs ->
  Forall (fun j => extension (job_source j) = job_ext j) jobs ->
  (forall k, counts !! k = count_entry (c0 k)) ->
  exists counts' fs' msgs,
    for_each jobs (run_job self mv) counts w
    = (Returned counts', World fs' (w_out w ++ msgs)) /\
    map msg_source msgs = map (fun j => Some (job_source j)) jobs /\
    forall k, counts' !! k = count_entry (c0 k + successes k msgs).
Proof.
  intros Hfmt. revert counts w c0.
  induction Hfmt as [|j jobs [dst Hdst] _ IH]; intros counts w c0 Hext Hc.
  - exists counts, (w_fs w), []. simpl. rewrite app_nil_r.
    split; [by destruct w|]. split; [done|].
    intros k. rewrite Nat.add_0_r. apply Hc.
  - apply Forall_cons in Hext as [Hj Hext].
    simpl. unfold bind. rewrite run_job_step.
    unfold destination in Hdst.
    destruct (format (job_pattern j) (job_number j)) as [e|base];
      [discriminate|]. cbn zeta.
    destruct (transfer mv (w_fs w) (job_source j) _) as [[e|] fs1].
    + destruct (IH counts (World fs1 (w_out w ++ [MsgError (job_source j) e]))
                  c0 Hext Hc) as (counts' & fs' & msgs & Hrun & Hsrc & Hcnt).
      exists counts', fs', (MsgError (job_source j) e :: msgs).
      split; [|split].
      * rewrite Hrun. simpl. by rewrite <- app_assoc.
      * simpl. by rewrite Hsrc.
      * intros k. rewrite successes_error. apply Hcnt.
    + pose proof (increment_entry (job_ext j) counts c0 Hc) as Hc1.
      destruct (IH (increment (job_ext j) counts)
                  (World fs1 (w_out w ++ [msg_done mv (job_source j)
                     (joinpath (folder_path self)
                        (String.append base (suffix (job_source j))))]))
                  _ Hext Hc1) as (counts' & fs' & msgs & Hrun & Hsrc & Hcnt).
      eexists counts', fs', (_ :: msgs).
      split; [|split].
      * rewrite Hrun. simpl. by rewrite <- app_assoc.
      * simpl. rewrite Hsrc. by destruct mv.
      * intros k. rewrite successes_done, Hj, Hcnt.
        f_equal. lia.
Qed.

End Jobs.

(* ------------------------------------------------------------------ *)
(** ** Directory trees *)

Lemma node_induction (P : node -> Prop) :
  (forall data, P (File data)) ->
  P Other ->
  (forall es, Forall (fun e => P e.2) es -> P (Dir es)) ->
  forall n, P n.
Proof.
  intros HF HO HD. fix IH 1. intros [data|es|].
  - apply HF.
  - apply HD. induction es as [|e es IHes]; constructor; [apply IH | exact IHes].
  - apply HO.
Qed.

Lemma wf_node_Dir es :
  wf_node (Dir es) <-> NoDup (map fst es) /\ Forall (fun e => wf_node e.2) es.
Proof.
  simpl. apply and_iff_compat_l.
  induction es as [|e es IH]; simpl.
  - split; [constructor | done].
  - rewrite Forall_cons, IH. reflexivity.
Qed.

Lemma assoc_elem_of nm c es : assoc nm es = Some c -> (nm, c) ∈ es.
Proof.
  induction es as [|[k n] es IH]; simpl; [discriminate|].
  destruct (String.eqb_spec k nm) as [->|Hne].
  - intros [= ->]. left.
  - intros H. right. by apply IH.
Qed.

Lemma elem_of_assoc nm c es :
  NoDup (map fst es) -> (nm, c) ∈ es -> assoc nm es = Some c.
Proof.
  induction es as [|[k n] es IH]; simpl; intros Hnd Hin.
  - by apply elem_of_nil in Hin.
  - apply NoDup_cons in Hnd as [Hk Hnd].
    apply elem_of_cons in Hin as [[= <- <-]|Hin].
    + by rewrite String.eqb_refl.
    + destruct (String.eqb_spec k nm) as [->|Hne]; [|by apply IH].
      exfalso. apply Hk. change (nm ∈ fst <$> es).
      apply list_elem_of_fmap. by exists (nm, c).
Qed.

Lemma last_snoc (p : path) (nm : string) : name (p ++ [nm]) = nm.
Proof. unfold name. apply last_last. Qed.

Lemma lookup_path_file_nil fs data rel :
  lookup_path (File data) rel = Some fs -> rel = [].
Proof. destruct rel; [done | discriminate]. Qed.

Lemma lookup_path_app fs p q :
  lookup_path fs (p ++ q)
  = match lookup_path fs p with
    | Some c => lookup_path c q
    | None => None
    end.
Proof.
  revert fs; induction p as [|nm p IH]; intros fs; simpl; [reflexivity|].
  destruct fs as [|es|]; try reflexivity.
  destruct (assoc nm es); [apply IH | reflexivity].
Qed.

(* ------------------------------------------------------------------ *)
(** ** Extension groups *)

Lemma extend_group_files ext files d :
  group_files (extend_group ext files d) ≡ₚ group_files d ++ files.
Proof.
  unfold group_files. induction d as [|[k fs] d IH]; simpl.
  - by rewrite app_nil_r.
  - destruct (String.eqb k ext); simpl.
    + rewrite <- !app_assoc. apply Permutation_app_head, Permutation_app_comm.
    + rewrite IH. by rewrite app_assoc.
Qed.

Lemma extend_group_keys ext files d k :
  k ∈ group_keys (extend_group ext files d) <-> k ∈ group_keys d \/ k = ext.
Proof.
  unfold group_keys. induction d as [|[k' fs] d IH]; simpl.
  - rewrite list_elem_of_singleton, elem_of_nil. tauto.
  - destruct (String.eqb_spec k' ext) as [->|Hne]; simpl.
    + rewrite !elem_of_cons. tauto.
    + rewrite !elem_of_cons, IH. tauto.
Qed.

Lemma extend_group_NoDup ext files d :
  NoDup (group_keys d) -> NoDup (group_keys (extend_group ext files d)).
Proof.
  unfold group_keys. induction d as [|[k fs] d IH]; simpl; intros Hnd.
  - apply NoDup_singleton.
  - apply NoDup_cons in Hnd as [Hk Hnd].
    destruct (String.eqb_spec k ext) as [->|Hne]; simpl.
    + by apply NoDup_cons.
    + apply NoDup_cons. split; [|by apply IH].
      intros Hin. apply (extend_group_keys ext files d k) in Hin as [Hin|Heq];
        [by apply Hk | by apply Hne].
Qed.

Lemma extend_group_by_extension ext files d :
  groups_by_extension d ->
  Forall (fun f => extension f = ext) files ->
  groups_by_extension (extend_group ext files d).
Proof.
  unfold groups_by_extension. intros Hd Hfiles.
  induction d as [|[k fs] d IH]; simpl.
  - by repeat constructor.
  - apply Forall_cons in Hd as [Hk Hd].
    destruct (String.eqb_spec k ext) as [->|Hne]; constructor; simpl; auto.
    by apply Forall_app.
Qed.

Lemma merge_groups_files sub d :
  group_files (merge_groups sub d) ≡ₚ group_files d ++ group_files sub.
Proof.
  revert d; induction sub as [|[ext files] sub IH]; intros d; simpl.
  - unfold group_files at 3. simpl. by rewrite app_nil_r.
  - rewrite IH, extend_group_files. unfold group_files at 4. simpl.
    by rewrite <- app_assoc.
Qed.

Lemma merge_groups_NoDup sub d :
  NoDup (group_keys d) -> NoDup (group_keys (merge_groups sub d)).
Proof.
  revert d; induction sub as [|[ext files] sub IH]; intros d Hnd; simpl;
    [done|]. by apply IH, extend_group_NoDup.
Qed.

Lemma merge_groups_by_extension sub d :
  groups_by_extension sub -> groups_by_extension d ->
  groups_by_extension (merge_groups sub d).
Proof.
  revert d; induction sub as [|[ext files] sub IH]; intros d Hsub Hd; simpl;
    [done|].
  apply Forall_cons in Hsub as [Hfiles Hsub].
  apply IH; [done|]. by apply extend_group_by_extension.
Qed.

Lemma scan_files_files folder es d :
  group_files (scan_files folder es d) ≡ₚ group_files d ++ files_here folder es.
Proof.
  revert d; induction es as [|[nm c] es IH]; intros d; simpl.
  - by rewrite app_nil_r.
  - destruct c; rewrite IH; simpl; [|done..].
    unfold append_group. rewrite extend_group_files. by rewrite <- app_assoc.
Qed.

Lemma scan_files_NoDup folder es d :
  NoDup (group_keys d) -> NoDup (group_keys (scan_files folder es d)).
Proof.
  revert d; induction es as [|[nm c] es IH]; intros d Hnd; simpl; [done|].
  destruct c; apply IH; [|done..]. by apply extend_group_NoDup.
Qed.

Lemma scan_files_by_extension folder es d :
  groups_by_extension d -> groups_by_extension (scan_files folder es d).
Proof.
  revert d; induction es as [|[nm c] es IH]; intros d Hd; simpl; [done|].
  destruct c; apply IH; [|done..].
  apply extend_group_by_extension; [done|].
  constructor; [|constructor]. unfold extension. by rewrite last_snoc.
Qed.

Lemma discover_Dir folder es rec :
  discover folder (Dir es) rec
  = let files_by_ext := scan_files folder es [] in
    if rec then foldl (visit_subfolder folder rec) files_by_ext es
    else files_by_ext.
Proof.
  simpl. destruct rec; [|reflexivity].
  generalize (scan_files folder es []).
  induction es as [|[nm c] es IH]; intros d; simpl; [reflexivity|].
  destruct c; apply IH.
Qed.

(* ------------------------------------------------------------------ *)
(** ** Discovery *)

Lemma discover_groups n :
  forall folder rec,
    NoDup (group_keys (discover folder n rec)) /\
    groups_by_extension (discover folder n rec).
Proof.
  induction n as [data| |es IH] using node_induction; intros folder rec;
    try (split; constructor).
  rewrite discover_Dir. cbn zeta.
  assert (Hscan : NoDup (group_keys (scan_files folder es [])) /\
                  groups_by_extension (scan_files folder es [])).
  { split; [apply scan_files_NoDup; constructor
           | apply scan_files_by_extension; constructor]. }
  destruct rec; [|exact Hscan].
  revert Hscan. generalize (scan_files folder es []).
  induction IH as [|[nm c] es Hc _ IHes]; intros d Hd; simpl; [exact Hd|].
  apply IHes. unfold visit_subfolder. simpl in *.
  destruct c; try exact Hd.
  destruct Hd as [Hnd Hext].
  destruct (Hc (folder ++ [nm]) true) as [_ Hsub].
  split; [by apply merge_groups_NoDup | by apply merge_groups_by_extension].
Qed.

Lemma all_files_Dir folder es :
  all_files folder (Dir es) = flat_map (entry_files folder) es.
Proof. reflexivity. Qed.

Lemma entry_files_split folder es :
  files_here folder es ++ flat_map (subfolder_files folder) es
  ≡ₚ flat_map (entry_files folder) es.
Proof.
  unfold files_here. induction es as [|[nm c] es IH]; simpl; [done|].
  unfold entry_files at 1, subfolder_files at 1. simpl.
  destruct c; simpl.
  - by rewrite IH.
  - rewrite <- IH. rewrite !app_assoc. apply Permutation_app_tail.
    apply Permutation_app_comm.
  - exact IH.
Qed.

Lemma foldl_visit_files folder es d :
  Forall (fun e => forall folder,
            group_files (discover folder e.2 true) ≡ₚ all_files folder e.2) es ->
  group_files (foldl (visit_subfolder folder true) d es)
  ≡ₚ group_files d ++ flat_map (subfolder_files folder) es.
Proof.
  intros IH. revert d.
  induction IH as [|[nm c] es Hc _ IHes]; intros d; cbn [foldl flat_map].
  - by rewrite app_nil_r.
  - rewrite IHes. unfold visit_subfolder, subfolder_files at 2.
    cbn [fst snd] in *.
    destruct c as [data|es'|]; rewrite ?app_nil_l; try done.
    rewrite merge_groups_files, Hc. by rewrite <- app_assoc.
Qed.

Lemma discover_files_recursive n :
  forall folder, group_files (discover folder n true) ≡ₚ all_files folder n.
Proof.
  induction n as [data| |es IH] using node_induction; intros folder;
    try reflexivity.
  rewrite discover_Dir, all_files_Dir. cbn zeta.
  rewrite foldl_visit_files by exact IH.
  rewrite (scan_files_files folder es []). simpl.
  apply entry_files_split.
Qed.

Lemma discover_files_flat folder es :
  group_files (discover folder (Dir es) false) ≡ₚ files_here folder es.
Proof. rewrite discover_Dir. cbn zeta. apply (scan_files_files folder es []). Qed.

Lemma elem_of_flat_map {A B : Type} (f : A -> list B) (l : list A) (y : B) :
  y ∈ flat_map f l <-> exists x, x ∈ l /\ y ∈ f x.
Proof.
  rewrite list_elem_of_In, in_flat_map.
  split; intros (x & Hx & Hy); exists x; by rewrite ?list_elem_of_In in *.
Qed.

Lemma elem_of_files_here folder es q :
  q ∈ files_here folder es
  <-> exists nm data, (nm, File data) ∈ es /\ q = folder ++ [nm].
Proof.
  unfold files_here. rewrite elem_of_flat_map. split.
  - intros ([nm c] & Hin & Hq). simpl in Hq. destruct c;
      try by apply elem_of_nil in Hq.
    apply list_elem_of_singleton in Hq. by exists nm, data.
  - intros (nm & data & Hin & ->). exists (nm, File data).
    split; [done|]. simpl. by apply list_elem_of_singleton.
Qed.

Lemma elem_of_all_files_reachable n :
  forall folder q, reachable_file n folder q -> q ∈ all_files folder n.
Proof.
  induction n as [data| |es IH] using node_induction;
    intros folder q (rel & data' & Hrel & -> & Hlook).
  - by apply lookup_path_file_nil in Hlook.
  - destruct rel; [done | discriminate].
  - destruct rel as [|nm rel]; [done|]. simpl in Hlook.
    destruct (assoc nm es) as [c|] eqn:Hc; [|discriminate].
    apply assoc_elem_of in Hc.
    rewrite all_files_Dir. apply elem_of_flat_map. exists (nm, c).
    split; [done|]. unfold entry_files. simpl.
    rewrite Forall_forall in IH. specialize (IH _ Hc). simpl in IH.
    destruct c as [d|es'|].
    + apply lookup_path_file_nil in Hlook as ->. by apply list_elem_of_singleton.
    + apply IH. destruct rel as [|nm' rel]; [discriminate|].
      exists (nm' :: rel), data'. split; [done|]. split; [|done].
      by rewrite <- app_assoc.
    + destruct rel; discriminate.
Qed.

Lemma all_files_reachable n :
  wf_node n ->
  forall folder q, q ∈ all_files folder n -> reachable_file n folder q.
Proof.
  induction n as [data| |es IH] using node_induction; intros Hwf folder q Hq;
    try by apply elem_of_nil in Hq.
  apply wf_node_Dir in Hwf as [Hnd Hwf].
  rewrite all_files_Dir in Hq. apply elem_of_flat_map in Hq as ([nm c] & Hin & Hq).
  rewrite Forall_forall in IH, Hwf.
  specialize (IH _ Hin). specialize (Hwf _ Hin).
  pose proof (elem_of_assoc _ _ _ Hnd Hin) as Hassoc.
  unfold entry_files in Hq. simpl in *. destruct c as [d|es'|].
  - apply list_elem_of_singleton in Hq as ->.
    exists [nm], d. split; [done|]. split; [done|]. simpl. by rewrite Hassoc.
  - destruct (IH Hwf _ _ Hq) as (rel & d & Hrel & -> & Hlook).
    exists (nm :: rel), d. split; [done|]. split; [by rewrite <- app_assoc|].
    simpl. by rewrite Hassoc.
  - by apply elem_of_nil in Hq.
Qed.

Lemma all_files_prefix n :
  forall p x, x ∈ all_files p n -> exists r, x = p ++ r.
Proof.
  induction n as [d| |es IH] using node_induction; intros p x Hx;
    try by apply elem_of_nil in Hx.
  rewrite all_files_Dir in Hx.
  apply elem_of_flat_map in Hx as ([nm c] & Hin & Hx).
  rewrite Forall_forall in IH. specialize (IH _ Hin).
  unfold entry_files in Hx. simpl in *. destruct c.
  - apply list_elem_of_singleton in Hx as ->. by exists [nm].
  - destruct (IH _ _ Hx) as [r ->]. exists (nm :: r). by rewrite <- app_assoc.
  - by apply elem_of_nil in Hx.
Qed.

Lemma entry_files_prefix folder e q :
  q ∈ entry_files folder e -> exists rel, q = folder ++ e.1 :: rel.
Proof.
  destruct e as [nm c]. unfold entry_files. simpl. destruct c as [d|es|].
  - intros ->%list_elem_of_singleton. by exists [].
  - intros Hq. destruct (all_files_prefix _ _ _ Hq) as [r ->].
    exists r. by rewrite <- app_assoc.
  - intros Hq. by apply elem_of_nil in Hq.
Qed.

Lemma all_files_NoDup n :
  wf_node n -> forall folder, NoDup (all_files folder n).
Proof.
  induction n as [data| |es IH] using node_induction; intros Hwf folder;
    try constructor.
  apply wf_node_Dir in Hwf as [Hnd Hwf]. rewrite all_files_Dir.
  induction es as [|[nm c] es IHes]; simpl; [constructor|].
  apply Forall_cons in IH as [IHc IH]. apply Forall_cons in Hwf as [Hwfc Hwf].
  simpl in Hnd. apply NoDup_cons in Hnd as [Hnm Hnd].
  apply NoDup_app. split; [|split].
  - unfold entry_files. simpl in *. destruct c; try constructor.
    + apply not_elem_of_nil.
    + constructor.
    + by apply IHc.
  - intros x Hx1 Hx2.
    apply entry_files_prefix in Hx1 as [r1 ->].
    apply elem_of_flat_map in Hx2 as (e & He & Hx2).
    apply entry_files_prefix in Hx2 as [r2 Heq].
    apply app_inv_head in Heq. injection Heq as Heq _. simpl in Heq.
    apply Hnm. rewrite Heq. change (e.1 ∈ fst <$> es).
    by apply list_elem_of_fmap_2.
  - by apply IHes.
Qed.

(* ------------------------------------------------------------------ *)
(** ** Comparison and sorting *)

Lemma nat_compare_order : Order Nat.compare.
Proof.
  split.
  - apply Nat.compare_refl.
  - apply Nat.compare_eq.
  - apply Nat.compare_antisym.
  - intros a b c. rewrite !Nat.compare_lt_iff. lia.
Qed.
#[global] Existing Instance nat_compare_order.

Lemma lex_compare_order {A : Type} (cmp : A -> A -> comparison) :
  Order cmp -> Order (lex_compare cmp).
Proof.
  intros Hcmp. split.
  - induction a as [|x a IH]; simpl; [reflexivity|]. by rewrite cmp_refl.
  - induction a as [|x a IH]; intros [|y b]; simpl; try done.
    destruct (cmp x y) eqn:Hxy; try done.
    intros Hab. apply cmp_eq in Hxy as ->. f_equal. by apply IH.
  - induction a as [|x a IH]; intros [|y b]; simpl; try done.
    rewrite (cmp_antisym x y). destruct (cmp x y); simpl; auto.
  - induction a as [|x a IH]; intros [|y b] [|z c]; simpl; try done.
    destruct (cmp x y) eqn:Hxy; try done.
    + apply cmp_eq in Hxy as ->. destruct (cmp y z); try done. apply IH.
    + intros _. destruct (cmp y z) eqn:Hyz; try done.
      * apply cmp_eq in Hyz as ->. by rewrite Hxy.
      * by rewrite (cmp_trans _ _ _ Hxy Hyz).
Qed.
#[global] Existing Instance lex_compare_order.

Lemma codes_inj a b : Str.codes a = Str.codes b -> a = b.
Proof.
  unfold Str.codes. revert b; induction a as [|c a IH]; intros [|c' b];
    simpl; try done.
  intros [= Hc Hab]. f_equal; [|by apply IH].
  unfold Str.code in Hc.
  by rewrite <- (ascii_nat_embedding c), <- (ascii_nat_embedding c'), Hc.
Qed.

Lemma str_compare_order : Order str_compare.
Proof.
  unfold str_compare. split.
  - intros a. apply cmp_refl.
  - intros a b Hab. apply codes_inj. by apply cmp_eq in Hab.
  - intros a b. apply cmp_antisym.
  - intros a b c. apply cmp_trans.
Qed.
#[global] Existing Instance str_compare_order.

Lemma path_compare_order : Order path_compare.
Proof. exact (lex_compare_order str_compare str_compare_order). Qed.
#[global] Existing Instance path_compare_order.

Section Sorting.
Context {A : Type} (cmp : A -> A -> comparison) `{!Order cmp}.

Lemma ltb_of_asym a b : ltb_of cmp a b = true -> ltb_of cmp b a = false.
Proof.
  unfold ltb_of. rewrite (cmp_antisym a b). by destruct (cmp a b).
Qed.

Lemma cmp_gt_lt a b : cmp a b = Gt -> cmp b a = Lt.
Proof. intros H. by rewrite (cmp_antisym a b), H. Qed.

Lemma le_of_trans : Transitive (le_of cmp).
Proof.
  intros a b c. unfold le_of, ltb_of.
  destruct (cmp b a) eqn:Hba; try done; intros _;
    destruct (cmp c b) eqn:Hcb; try done; intros _.
  - apply cmp_eq in Hba as ->. by rewrite Hcb.
  - apply cmp_eq in Hba as ->. by rewrite Hcb.
  - apply cmp_eq in Hcb as ->. by rewrite Hba.
  - apply cmp_gt_lt in Hba, Hcb.
    rewrite (cmp_antisym a c), (cmp_trans _ _ _ Hba Hcb). done.
Qed.
#[local] Existing Instance le_of_trans.

Lemma le_of_antisym : AntiSymm (=) (le_of cmp).
Proof.
  intros a b. unfold le_of, ltb_of. rewrite (cmp_antisym a b).
  destruct (cmp a b) eqn:Hab; simpl; try done.
  intros _ _. by apply cmp_eq.
Qed.
#[local] Existing Instance le_of_antisym.

Lemma insert_sorted_Permutation x l :
  insert_sorted (ltb_of cmp) x l ≡ₚ x :: l.
Proof.
  induction l as [|y l IH]; simpl; [done|].
  destruct (ltb_of cmp y x); [|done].
  rewrite IH. apply Permutation_swap.
Qed.

Lemma sort_by_Permutation l : sort_by (ltb_of cmp) l ≡ₚ l.
Proof.
  induction l as [|x l IH]; simpl; [done|].
  by rewrite insert_sorted_Permutation, IH.
Qed.

Lemma insert_sorted_Sorted x l :
  Sorted (le_of cmp) l -> Sorted (le_of cmp) (insert_sorted (ltb_of cmp) x l).
Proof.
  induction 1 as [|y l Hl IH Hy]; simpl.
  - by repeat constructor.
  - destruct (ltb_of cmp y x) eqn:Hyx.
    + constructor; [exact IH|].
      destruct Hy as [|z l Hyz]; simpl.
      * constructor. by apply ltb_of_asym.
      * destruct (ltb_of cmp z x); constructor;
          [exact Hyz | by apply ltb_of_asym].
    + constructor; [by constructor | by constructor].
Qed.

Lemma sort_by_Sorted l : Sorted (le_of cmp) (sort_by (ltb_of cmp) l).
Proof.
  induction l as [|x l IH]; simpl; [constructor|].
  by apply insert_sorted_Sorted.
Qed.

(** The result depends on the elements only, not on their order in the
    list that is sorted. *)
Lemma sort_by_unique l1 l2 :
  l1 ≡ₚ l2 -> sort_by (ltb_of cmp) l1 = sort_by (ltb_of cmp) l2.
Proof.
  intros Hperm. apply (Sorted_unique (le_of cmp)); try apply sort_by_Sorted.
  by rewrite !sort_by_Permutation.
Qed.

End Sorting.

Lemma enumerate_fst {A : Type} k (l : list A) :
  map fst (enumerate k l) = seq k (length l).
Proof.
  revert k; induction l as [|x l IH]; intros k; simpl; [done|]. by rewrite IH.
Qed.

Lemma enumerate_snd {A : Type} k (l : list A) : map snd (enumerate k l) = l.
Proof.
  revert k; induction l as [|x l IH]; intros k; simpl; [done|]. by rewrite IH.
Qed.

Lemma sort_paths_Permutation files : sort_paths files ≡ₚ files.
Proof. apply (sort_by_Permutation path_compare). Qed.

Lemma plan_sources self d : map job_source (plan self d) ≡ₚ group_files d.
Proof.
  unfold plan, group_files. induction d as [|[ext files] d IH]; simpl; [done|].
  rewrite map_app, IH. apply Permutation_app_tail.
  unfold group_jobs. rewrite map_map. simpl.
  change (map (fun x : nat * path => x.2)) with (map (@snd nat path)).
  rewrite enumerate_snd. apply sort_paths_Permutation.
Qed.

Lemma plan_extensions self d :
  groups_by_extension d ->
  Forall (fun j => extension (job_source j) = job_ext j) (plan self d).
Proof.
  unfold plan. induction 1 as [|[ext files] d Hg _ IH]; simpl; [constructor|].
  apply Forall_app. split; [|exact IH].
  unfold group_jobs. apply Forall_map. simpl in *.
  apply Forall_forall. intros [i f] Hin. simpl.
  rewrite Forall_forall in Hg. apply Hg.
  rewrite <- (sort_paths_Permutation files).
  rewrite <- (enumerate_snd 1 (sort_paths files)).
  change f with ((i, f).2). by apply list_elem_of_fmap_2.
Qed.

(* ------------------------------------------------------------------ *)
(** ** What discovery finds *)

Lemma reachable_file_is_file fs root es q :
  lookup_path fs root = Some (Dir es) ->
  reachable_file (Dir es) root q
  <-> exists rel, rel <> [] /\ q = root ++ rel /\ is_file fs q = true.
Proof.
  intros Hroot. unfold reachable_file, is_file. split.
  - intros (rel & data & Hrel & -> & Hlook). exists rel.
    split; [done|]. split; [done|].
    by rewrite lookup_path_app, Hroot, Hlook.
  - intros (rel & Hrel & -> & Hfile). exists rel.
    rewrite lookup_path_app, Hroot in Hfile.
    destruct (lookup_path (Dir es) rel) as [[data| |]|] eqn:Hlook; try done.
    by exists data.
Qed.

Lemma child_file_is_file fs root es q :
  lookup_path fs root = Some (Dir es) ->
  NoDup (map fst es) ->
  q ∈ files_here root es
  <-> exists nm, q = root ++ [nm] /\ is_file fs q = true.
Proof.
  intros Hroot Hnd. rewrite elem_of_files_here. unfold is_file. split.
  - intros (nm & data & Hin & ->). exists nm. split; [done|].
    rewrite lookup_path_app, Hroot. simpl.
    by rewrite (elem_of_assoc _ _ _ Hnd Hin).
  - intros (nm & -> & Hfile). exists nm.
    rewrite lookup_path_app, Hroot in Hfile. simpl in Hfile.
    destruct (assoc nm es) as [[data| |]|] eqn:Hassoc; try done.
    exists data. split; [by apply assoc_elem_of | done].
Qed.

(** C4. Recursive discovery of a directory puts every regular file that
    directory descent reaches below the source folder in the groups, and
    nothing else; no extension has two groups and no file occurs twice in
    the groups taken together, so each file is in exactly one group,
    exactly once; the group is the one of its lower-cased extension. *)
Theorem discovery_recursive_exactly_once fs root es :
  lookup_path fs root = Some (Dir es) ->
  wf_node (Dir es) ->
  exists d,
    _get_files_by_extension fs root true = inr d /\
    NoDup (group_keys d) /\
    NoDup (group_files d) /\
    groups_by_extension d /\
    forall q, q ∈ group_files d
              <-> exists rel, rel <> [] /\ q = root ++ rel /\ is_file fs q = true.
Proof.
  intros Hroot Hwf. exists (discover root (Dir es) true).
  unfold _get_files_by_extension. rewrite Hroot.
  destruct (discover_groups (Dir es) root true) as [Hkeys Hext].
  repeat split; try done.
  - rewrite discover_files_recursive. by apply all_files_NoDup.
  - rewrite discover_files_recursive. intros Hq.
    apply (reachable_file_is_file fs root es q Hroot).
    by apply all_files_reachable.
  - rewrite discover_files_recursive. intros Hq.
    apply elem_of_all_files_reachable.
    by apply (reachable_file_is_file fs root es q Hroot).
Qed.

Section Sources.
Context {L : Lib}.

(** Whatever happens, the lines printed by the jobs are about the first
    jobs of the plan, one line each, in order. *)
Lemma run_jobs_prefix self mv jobs counts w :
  exists out fs' msgs n,
    for_each jobs (run_job self mv) counts w
    = (out, World fs' (w_out w ++ msgs)) /\
    map msg_source msgs = map (fun j => Some (job_source j)) (take n jobs).
Proof.
  revert counts w; induction jobs as [|j jobs IH]; intros counts w.
  - exists (Returned counts), (w_fs w), [], 0. rewrite app_nil_r.
    by destruct w.
  - simpl. unfold bind. rewrite run_job_step.
    destruct (format (job_pattern j) (job_number j)) as [e|base].
    { exists (Raised e), (w_fs w), [], 0. rewrite app_nil_r. by destruct w. }
    cbn zeta.
    destruct (transfer mv (w_fs w) (job_source j) _) as [[e|] fs1].
    + destruct (IH counts (World fs1 (w_out w ++ [MsgError (job_source j) e])))
        as (out & fs' & msgs & n & Hrun & Hsrc).
      exists out, fs', (MsgError (job_source j) e :: msgs), (S n).
      rewrite Hrun. simpl. rewrite <- app_assoc, Hsrc. done.
    + match goal with
      | |- context [for_each jobs _ ?c ?w1] =>
          destruct (IH c w1) as (out & fs' & msgs & n & Hrun & Hsrc)
      end.
      eexists out, fs', (_ :: msgs), (S n).
      rewrite Hrun. simpl. rewrite <- app_assoc, Hsrc.
      split; [reflexivity|]. by destruct mv.
Qed.

(** C7. Without [recursive], discovery returns exactly the regular files
    that are direct children of the source folder, and every file
    [organize_files] then copies, moves or reports is one of them: no
    subfolder is entered. *)
Theorem organize_files_non_recursive self root mv w es :
  lookup_path (w_fs w) root = Some (Dir es) ->
  wf_node (Dir es) ->
  (exists d,
     _get_files_by_extension (w_fs w) root false = inr d /\
     forall q, q ∈ group_files d
               <-> exists nm, q = root ++ [nm] /\ is_file (w_fs w) q = true) /\
  (exists out fs' msgs,
     organize_files self root false mv w
     = (out, World fs' (w_out w ++ msgs)) /\
     forall m q, m ∈ msgs -> msg_source m = Some q ->
                 exists nm, q = root ++ [nm] /\ is_file (w_fs w) q = true).
Proof.
  intros Hroot Hwf. apply wf_node_Dir in Hwf as [Hnd _].
  assert (Hfiles : forall q, q ∈ group_files (discover root (Dir es) false)
            <-> exists nm, q = root ++ [nm] /\ is_file (w_fs w) q = true).
  { intros q. rewrite discover_files_flat.
    by apply child_file_is_file. }
  split.
  - exists (discover root (Dir es) false).
    unfold _get_files_by_extension. by rewrite Hroot.
  - rewrite (organize_files_dir _ _ _ _ _ _ Hroot).
    destruct (run_jobs_prefix self mv
                (plan self (discover root (Dir es) false)) ∅ w)
      as (out & fs' & msgs & n & Hrun & Hsrc).
    exists out, fs', msgs. split; [exact Hrun|].
    intros m q Hm Hq. apply Hfiles.
    rewrite <- plan_sources.
    assert (Hin : Some q ∈ map msg_source msgs).
    { rewrite <- Hq. change (msg_source m ∈ msg_source <$> msgs).
      by apply list_elem_of_fmap_2. }
    rewrite Hsrc in Hin.
    apply list_elem_of_In, in_map_iff in Hin as (j & [= <-] & Hj).
    apply list_elem_of_In, in_map, list_elem_of_In.
    apply list_elem_of_In in Hj. by apply (subseteq_take n).
Qed.

End Sources.

(* ------------------------------------------------------------------ *)
(** ** Failures of single files *)

Section Failures.
Context {L : Lib}.
Implicit Types (self : organizer) (w : world) (counts : gmap string nat).

(** The loop over the jobs stops early only when a name cannot be
    formatted; a failed copy or move is reported and the loop goes on. *)
Lemma run_jobs_outcome self mv jobs counts w (c0 : string -> nat) :
  Forall (fun j => extension (job_source j) = job_ext j) jobs ->
  (forall k, counts !! k = count_entry (c0 k)) ->
  exists out fs' msgs n,
    for_each jobs (run_job self mv) counts w
    = (out, World fs' (w_out w ++ msgs)) /\
    map msg_source msgs = map (fun j => Some (job_source j)) (take n jobs) /\
    match out with
    | Returned counts' =>
        n = length jobs /\
        forall k, counts' !! k = count_entry (c0 k + successes k msgs)
    | Raised e =>
        exists j, jobs !! n = Some j /\
                  format (job_pattern j) (job_number j) = inl e
    end.
Proof.
  intros Hext. revert counts w c0.
  induction Hext as [|j jobs Hj _ IH]; intros counts w c0 Hc.
  - exists (Returned counts), (w_fs w), [], 0. rewrite app_nil_r.
    split; [by destruct w|]. split; [done|]. split; [done|].
    intros k. rewrite Nat.add_0_r. apply Hc.
  - simpl. unfold bind. rewrite run_job_step.
    destruct (format (job_pattern j) (job_number j)) as [e|base] eqn:Hfmt.
    { exists (Raised e), (w_fs w), [], 0. rewrite app_nil_r.
      split; [by destruct w|]. split; [done|]. by exists j. }
    cbn zeta.
    destruct (transfer mv (w_fs w) (job_source j) _) as [[e|] fs1].
    + destruct (IH counts (World fs1 (w_out w ++ [MsgError (job_source j) e]))
                  c0 Hc) as (out & fs' & msgs & n & Hrun & Hsrc & Hout).
      exists out, fs', (MsgError (job_source j) e :: msgs), (S n).
      rewrite Hrun. simpl. rewrite <- app_assoc, Hsrc.
      split; [done|]. split; [done|].
      destruct out as [counts'|e']; [|exact Hout].
      destruct Hout as [-> Hcnt]. split; [done|].
      intros k. rewrite successes_error. apply Hcnt.
    + pose proof (increment_entry (job_ext j) counts c0 Hc) as Hc1.
      match goal with
      | |- context [for_each jobs _ ?c ?w1] =>
          destruct (IH c w1 _ Hc1)
            as (out & fs' & msgs & n & Hrun & Hsrc & Hout)
      end.
      eexists out, fs', (_ :: msgs), (S n).
      rewrite Hrun. simpl. rewrite <- app_assoc, Hsrc.
      split; [reflexivity|]. split; [by destruct mv|].
      destruct out as [counts'|e']; [|exact Hout].
      destruct Hout as [-> Hcnt]. split; [done|].
      intros k. rewrite successes_done, Hj, Hcnt. f_equal. lia.
Qed.

(** C6. A copy or move that raises is caught: the error line is printed,
    the counters are left as they are, and the loop goes on.  So a run
    on a directory prints one line for each job of the plan, in order,
    and returns a map holding, for each extension, the number of
    successes (no entry when there is none); the only way to stop
    before the last job is an exception from formatting a name. *)
Theorem copy_move_failures_contained self root rec mv w es :
  lookup_path (w_fs w) root = Some (Dir es) ->
  (forall counts j w1 base e fs1,
      format (job_pattern j) (job_number j) = inr base ->
      transfer mv (w_fs w1) (job_source j)
        (joinpath (folder_path self)
           (String.append base (suffix (job_source j)))) = (Some e, fs1) ->
      run_job self mv counts j w1
      = (Returned counts,
         World fs1 (w_out w1 ++ [MsgError (job_source j) e]))) /\
  exists out fs' msgs n,
    organize_files self root rec mv w = (out, World fs' (w_out w ++ msgs)) /\
    map msg_source msgs
    = map (fun j => Some (job_source j))
        (take n (plan self (discover root (Dir es) rec))) /\
    match out with
    | Returned counts =>
        n = length (plan self (discover root (Dir es) rec)) /\
        forall ext, counts !! ext = count_entry (successes ext msgs)
    | Raised e =>
        exists j, plan self (discover root (Dir es) rec) !! n = Some j /\
                  format (job_pattern j) (job_number j) = inl e
    end.
Proof.
  intros Hroot. split.
  - intros counts j w1 base e fs1 Hfmt Htr.
    rewrite run_job_step, Hfmt. cbn zeta. by rewrite Htr.
  - rewrite (organize_files_dir _ _ _ _ _ _ Hroot).
    apply (run_jobs_outcome self mv _ ∅ w (fun _ => 0)).
    + apply plan_extensions, discover_groups.
    + intros k. apply lookup_empty.
Qed.

(** C1, as the code has it. The name of a file is formatted before the
    [try]: when formatting fails for a job, the exception leaves
    [organize_files].  The jobs before it have run and have printed
    their lines, and their effects stay: the world the exception leaves
    behind is the very world the loop over the earlier jobs returns, with
    the file system those jobs produced and one line for each of them, in
    order.  Nothing is printed for the failing job, no later job runs,
    and no result map is returned. *)
Theorem format_failure_escapes self root rec mv w es before j after e :
  lookup_path (w_fs w) root = Some (Dir es) ->
  plan self (discover root (Dir es) rec) = before ++ j :: after ->
  Forall (fun j => is_Some (destination self j)) before ->
  format (job_pattern j) (job_number j) = inl e ->
  exists counts' fs' msgs,
    for_each before (run_job self mv) ∅ w
    = (Returned counts', World fs' (w_out w ++ msgs)) /\
    organize_files self root rec mv w
    = (Raised e, World fs' (w_out w ++ msgs)) /\
    map msg_source msgs = map (fun j => Some (job_source j)) before /\
    forall k, counts' !! k = count_entry (successes k msgs).
Proof.
  intros Hroot Hplan Hbefore Hfmt.
  rewrite (organize_files_dir _ _ _ _ _ _ Hroot), Hplan, for_each_app.
  assert (Hext : Forall (fun j => extension (job_source j) = job_ext j) before).
  { pose proof (plan_extensions self _
                  (proj2 (discover_groups (Dir es) root rec))) as H.
    rewrite Hplan in H. by apply Forall_app in H as [H _]. }
  destruct (run_jobs_returns self mv before ∅ w (fun _ => 0) Hbefore Hext)
    as (counts & fs' & msgs & Hrun & Hsrc & Hcnt).
  { intros k. apply lookup_empty. }
  exists counts, fs', msgs.
  split; [exact Hrun|]. split; [|split; [exact Hsrc|exact Hcnt]].
  unfold bind. rewrite Hrun. simpl. unfold bind.
  by rewrite run_job_step, Hfmt.
Qed.

End Failures.

(* ------------------------------------------------------------------ *)
(** ** Numbering and patterns *)

(** C2, as the code has it. The jobs of a group carry the numbers 1, 2, ...
    up to the size of the group, each once; their files are those of the
    group, in ascending order of [Path] comparison, which compares the
    lists of path components (each component as a string) and not the
    path strings; the numbering depends on the files of the group only,
    not on the order discovery listed them in. *)
Theorem numbering_by_path_components {L : Lib} self mv counts
    (g : string * list path) w :
  organize_group self mv counts g w
  = for_each (group_jobs self g) (run_job self mv) counts w /\
  map job_number (group_jobs self g) = seq 1 (length g.2) /\
  map job_source (group_jobs self g) ≡ₚ g.2 /\
  Sorted path_le (map job_source (group_jobs self g)) /\
  forall files', files' ≡ₚ g.2 -> group_jobs self (g.1, files') = group_jobs self g.
Proof.
  assert (Hsrc : forall g', map job_source (group_jobs self g') = sort_paths g'.2).
  { intros g'. unfold group_jobs. rewrite map_map. simpl.
    change (map (fun x : nat * path => x.2)) with (map (@snd nat path)).
    apply enumerate_snd. }
  split; [apply organize_group_jobs|]. split; [|split; [|split]].
  - unfold group_jobs. rewrite map_map. simpl.
    change (map (fun x : nat * path => x.1)) with (map (@fst nat path)).
    rewrite enumerate_fst. f_equal.
    apply Permutation_length, sort_paths_Permutation.
  - rewrite Hsrc. apply sort_paths_Permutation.
  - rewrite Hsrc. apply (sort_by_Sorted path_compare).
  - intros files' Hperm. unfold group_jobs. simpl.
    assert (Heq : sort_paths files' = sort_paths g.2)
      by apply (sort_by_unique path_compare _ _ Hperm).
    by rewrite Heq.
Qed.


Lemma lstrip_no_occurrence ch t : Str.rfind ch t = None -> Str.lstrip ch t = t.
Proof.
  destruct t as [|c t]; simpl; [done|].
  destruct (Str.rfind ch t); [discriminate|].
  by destruct (Ascii.eqb c ch).
Qed.




Lemma upper_ascii_dot c : upper_ascii c = "."%char -> c = "."%char.
Proof. by destruct c as [[] [] [] [] [] [] [] []]. Qed.












(* ------------------------------------------------------------------ *)
(** ** Reading a tree after a change *)

Lemma stat_cons es nm q :
  stat (Dir es) (nm :: q)
  = match assoc nm es with Some c => stat c q | None => None end.
Proof. unfold stat. simpl. by destruct (assoc nm es). Qed.

Lemma stat_nil_Dir es : stat (Dir es) [] = Some SDir.
Proof. reflexivity. Qed.

Lemma assoc_set_entry_eq nm new es : assoc nm (set_entry nm new es) = Some new.
Proof.
  induction es as [|[k n] es IH]; simpl.
  - by rewrite String.eqb_refl.
  - destruct (String.eqb k nm) eqn:E; simpl; by rewrite E.
Qed.

Lemma assoc_set_entry_ne nm k new es :
  k <> nm -> assoc k (set_entry nm new es) = assoc k es.
Proof.
  intros Hne. induction es as [|[k' n] es IH]; simpl.
  - destruct (String.eqb_spec nm k); congruence.
  - destruct (String.eqb_spec k' nm) as [->|Hk']; simpl.
    + destruct (String.eqb_spec nm k); congruence.
    + destruct (String.eqb k' k); [done | exact IH].
Qed.

Lemma assoc_app_ne nm k new es :
  k <> nm -> assoc k (es ++ [(nm, new)]) = assoc k es.
Proof.
  intros Hne. induction es as [|[k' n] es IH]; simpl.
  - destruct (String.eqb_spec nm k); congruence.
  - destruct (String.eqb k' k); [done | exact IH].
Qed.

Lemma assoc_del_entry_eq nm es : assoc nm (del_entry nm es) = None.
Proof.
  induction es as [|[k n] es IH]; simpl; [done|].
  destruct (String.eqb k nm) eqn:E; simpl; [exact IH | by rewrite E].
Qed.

Lemma assoc_del_entry_ne nm k es :
  k <> nm -> assoc k (del_entry nm es) = assoc k es.
Proof.
  intros Hne. induction es as [|[k' n] es IH]; simpl; [done|].
  destruct (String.eqb_spec k' nm) as [->|Hk']; simpl.
  - destruct (String.eqb_spec nm k); [congruence | exact IH].
  - destruct (String.eqb k' k); [done | exact IH].
Qed.

Lemma not_prefix_cons (nm k : string) (p q : path) :
  ~ (nm :: p) `prefix_of` (k :: q) -> k <> nm \/ ~ p `prefix_of` q.
Proof.
  intros Hnp. destruct (decide (k = nm)) as [->|Hne]; [right | by left].
  intros Hpq. apply Hnp. by apply prefix_cons.
Qed.

Lemma stat_write_frame d :
  forall fs new fs' q,
    write_path fs d new = Some fs' -> ~ d `prefix_of` q ->
    stat fs' q = stat fs q.
Proof.
  induction d as [|nm d IH]; intros fs new fs' q Hw Hnp.
  - exfalso. apply Hnp, prefix_nil.
  - simpl in Hw. destruct fs as [|es|]; try discriminate.
    destruct (assoc nm es) as [c|] eqn:Hc.
    + destruct (write_path c d new) as [c'|] eqn:Hwc; [|discriminate].
      injection Hw as <-. destruct q as [|k q]; [done|].
      rewrite !stat_cons.
      destruct (not_prefix_cons _ _ _ _ Hnp) as [Hne|Hnp'].
      * by rewrite assoc_set_entry_ne.
      * destruct (decide (k = nm)) as [->|Hne];
          [|by rewrite assoc_set_entry_ne].
        rewrite assoc_set_entry_eq, Hc. by apply (IH c new).
    + destruct d; [|discriminate]. injection Hw as <-.
      destruct q as [|k q]; [done|]. rewrite !stat_cons.
      destruct (not_prefix_cons _ _ _ _ Hnp) as [Hne|Hnp'].
      * by rewrite assoc_app_ne.
      * exfalso. apply Hnp', prefix_nil.
Qed.

Lemma stat_remove_frame s :
  forall fs fs' q,
    remove_path fs s = Some fs' -> ~ s `prefix_of` q ->
    stat fs' q = stat fs q.
Proof.
  induction s as [|nm s IH]; intros fs fs' q Hr Hnp; [discriminate|].
  simpl in Hr. destruct fs as [|es|]; try discriminate.
  destruct (assoc nm es) as [c|] eqn:Hc; [|discriminate].
  destruct q as [|k q].
  { destruct s; [by injection Hr as <-|].
    destruct (remove_path c (s :: s0)); [by injection Hr as <- | discriminate]. }
  destruct (not_prefix_cons _ _ _ _ Hnp) as [Hne|Hnp'].
  - destruct s.
    + injection Hr as <-. rewrite !stat_cons. by rewrite assoc_del_entry_ne.
    + destruct (remove_path c (s :: s0)); [|discriminate].
      injection Hr as <-. rewrite !stat_cons. by rewrite assoc_set_entry_ne.
  - destruct s as [|nm' s]; [exfalso; apply Hnp', prefix_nil|].
    destruct (remove_path c (nm' :: s)) as [c'|] eqn:Hrc; [|discriminate].
    injection Hr as <-. rewrite !stat_cons.
    destruct (decide (k = nm)) as [->|Hne]; [|by rewrite assoc_set_entry_ne].
    rewrite assoc_set_entry_eq, Hc. by apply (IH c).
Qed.

Lemma stat_remove_gone s :
  forall fs fs', remove_path fs s = Some fs' -> stat fs' s = None.
Proof.
  induction s as [|nm s IH]; intros fs fs' Hr; [discriminate|].
  simpl in Hr. destruct fs as [|es|]; try discriminate.
  destruct (assoc nm es) as [c|] eqn:Hc; [|discriminate].
  destruct s as [|nm' s].
  - injection Hr as <-. rewrite stat_cons. by rewrite assoc_del_entry_eq.
  - destruct (remove_path c (nm' :: s)) as [c'|] eqn:Hrc; [|discriminate].
    injection Hr as <-. rewrite stat_cons, assoc_set_entry_eq. by apply (IH c).
Qed.

Lemma not_prefix_app (d r q : path) :
  ~ d `prefix_of` q -> ~ (d ++ r) `prefix_of` q.
Proof.
  intros Hnp Hp. apply Hnp. etrans; [|exact Hp]. by apply prefix_app_r.
Qed.

Lemma posix_rename_frame fs data src dst q :
  ~ dst `prefix_of` q -> ~ src `prefix_of` q ->
  stat (Posix.rename fs data src dst).2 q = stat fs q.
Proof.
  intros Hd Hs. unfold Posix.rename.
  case_decide; [reflexivity|].
  destruct (lookup_path fs dst) as [[| |]|]; try reflexivity;
    destruct (remove_path fs src) as [fs1|] eqn:Hr; try reflexivity;
    destruct (write_path fs1 dst (File data)) as [fs2|] eqn:Hw;
    try reflexivity;
    simpl; rewrite (stat_write_frame _ _ _ _ _ Hw Hd);
    apply (stat_remove_frame _ _ _ _ Hr Hs).
Qed.

Lemma posix_rename_gone fs data src dst fs' :
  Posix.rename fs data src dst = (None, fs') -> ~ dst `prefix_of` src ->
  stat fs' src = None.
Proof.
  intros Hren Hd. unfold Posix.rename in Hren.
  case_decide as Heq; [by exfalso; apply Hd; rewrite Heq|].
  destruct (lookup_path fs dst) as [[| |]|]; try discriminate;
    destruct (remove_path fs src) as [fs1|] eqn:Hr; try discriminate;
    destruct (write_path fs1 dst (File data)) as [fs2|] eqn:Hw;
    try discriminate; injection Hren as <-;
    rewrite (stat_write_frame _ _ _ _ _ Hw Hd);
    apply (stat_remove_gone _ _ _ Hr).
Qed.

Lemma resolve_from_plain fs cur p :
  plain p -> Posix.resolve_from fs cur p = inr (cur ++ p).
Proof.
  intros Hp. revert cur. induction Hp as [|nm p Hnm _ IH]; intros cur; simpl.
  - by rewrite app_nil_r.
  - destruct (String.eqb_spec nm ".."); [done|].
    by rewrite IH, <- app_assoc.
Qed.

Lemma resolve_plain fs p : plain p -> Posix.resolve fs p = inr p.
Proof. apply resolve_from_plain. Qed.

Lemma posix_frames : LibFrames Posix.lib.
Proof.
  split; simpl.
  - intros fs src dst q Hpd _ Hd. unfold Posix.copy2.
    destruct (Posix.resolve fs src) as [e|src']; [reflexivity|].
    destruct (lookup_path fs src') as [[data| |]|]; try reflexivity.
    rewrite (resolve_plain _ _ Hpd).
    pose proof (not_prefix_app dst [name src] q Hd) as Hd'.
    destruct (is_dir fs dst);
      (case_decide; [reflexivity|]);
      (match goal with
       | |- context [lookup_path fs ?d] =>
           destruct (lookup_path fs d) as [[| |]|]; try reflexivity;
           destruct (write_path fs d (File data)) as [fs2|] eqn:Hw;
           try reflexivity;
           simpl; by apply (stat_write_frame _ _ _ _ _ Hw)
       end).
  - intros fs src dst q Hps Hpd _ Hd Hs. unfold Posix.move.
    rewrite (resolve_plain _ _ Hps).
    destruct (lookup_path fs src) as [[data| |]|]; try reflexivity.
    rewrite (resolve_plain _ _ Hpd).
    destruct (is_dir fs dst).
    + destruct (path_exists fs (dst ++ [name src])); [reflexivity|].
      apply posix_rename_frame; [by apply not_prefix_app | done].
    + by apply posix_rename_frame.
  - intros fs src dst fs' Hps Hpd Hmv Hd. unfold Posix.move in Hmv.
    rewrite (resolve_plain _ _ Hps) in Hmv.
    destruct (lookup_path fs src) as [[data| |]|]; try discriminate.
    rewrite (resolve_plain _ _ Hpd) in Hmv.
    destruct (is_dir fs dst).
    + destruct (path_exists fs (dst ++ [name src])); [discriminate|].
      apply (posix_rename_gone _ _ _ _ _ Hmv). by apply not_prefix_app.
    + by apply (posix_rename_gone _ _ _ _ _ Hmv).
Qed.
#[global] Existing Instance posix_frames.

(* ------------------------------------------------------------------ *)
(** ** The source files after a run *)





Section Frames.
Context {L : Lib} `{!LibFrames L}.
Implicit Types (self : organizer) (w : world) (counts : gmap string nat).

Lemma run_job_frame self mv counts j w q :
  plain q ->
  (mv = true -> plain (job_source j) /\ ~ job_source j `prefix_of` q) ->
  (forall d, destination self j = Some d -> plain d /\ ~ d `prefix_of` q) ->
  stat (w_fs (run_job self mv counts j w).2) q = stat (w_fs w) q.
Proof.
  intros Hq Hsrc Hdst. rewrite run_job_step. unfold destination in Hdst.
  destruct (format (job_pattern j) (job_number j)) as [e|base];
    [reflexivity|]. cbn zeta.
  destruct (Hdst _ eq_refl) as [Hpd Hd]. unfold transfer. destruct mv.
  - destruct (Hsrc eq_refl) as [Hps Hs].
    pose proof (move_frame (w_fs w) (job_source j) _ q Hps Hpd Hq Hd Hs)
      as Hfr.
    destruct (move _ _ _) as [[e|] fs1]; exact Hfr.
  - pose proof (copy2_frame (w_fs w) (job_source j) _ q Hpd Hq Hd) as Hfr.
    destruct (copy2 _ _ _) as [[e|] fs1]; exact Hfr.
Qed.

(** A plain path that no job has as its source or below its destination
    reads the same after the jobs as before (in copy mode the sources do
    not matter), when the sources and destinations are plain too. *)
Lemma run_jobs_frame self mv jobs counts w q :
  plain q ->
  (forall j, j ∈ jobs ->
     (mv = true -> plain (job_source j) /\ ~ job_source j `prefix_of` q) /\
     (forall d, destination self j = Some d ->
                plain d /\ ~ d `prefix_of` q)) ->
  stat (w_fs (for_each jobs (run_job self mv) counts w).2) q
  = stat (w_fs w) q.
Proof.
  intros Hq.
  revert counts w; induction jobs as [|j jobs IH]; intros counts w Hjobs;
    [reflexivity|].
  destruct (Hjobs j) as [Hsrc Hdst]; [left|].
  pose proof (run_job_frame self mv counts j w q Hq Hsrc Hdst) as Hstep.
  simpl. unfold bind.
  destruct (run_job self mv counts j w) as [[counts'|e] w']; simpl in *;
    [|exact Hstep].
  rewrite IH; [exact Hstep|]. intros j' Hj'. apply Hjobs. by right.
Qed.



End Frames.

(* ------------------------------------------------------------------ *)
(** ** Concrete runs *)

(** C1, counterexample. The pattern registered for [jpg] cannot be
    formatted and the picture is the first file of the run: the
    [ValueError] leaves [organize_files], nothing is printed for the
    picture, and the text file after it is never processed. *)
Lemma format_failure_counterexample :
  organize_files (L := Posix.lib) broken_self ["src"] false false
    (World pictures_fs [])
  = (Raised ValueError, World pictures_fs []).
Proof. vm_compute. reflexivity. Qed.

Lemma format_failure_escapes_witness :
  exists counts' fs' msgs,
    for_each
      [Job "txt" "file_{:02d}" 1 ["src"; "a.txt"];
       Job "txt" "file_{:02d}" 2 ["src"; "b.txt"]]
      (run_job (L := Posix.lib) broken_self false) ∅ (World scenario_fs [])
    = (Returned counts', World fs' ([] ++ msgs)) /\
    organize_files (L := Posix.lib) broken_self ["src"] false false
      (World scenario_fs [])
    = (Raised ValueError, World fs' ([] ++ msgs)) /\
    map msg_source msgs = [Some ["src"; "a.txt"]; Some ["src"; "b.txt"]] /\
    forall k, counts' !! k = count_entry (successes k msgs).
Proof.
  apply (format_failure_escapes (L := Posix.lib) broken_self ["src"] false
           false (World scenario_fs []) scenario_src
           [Job "txt" "file_{:02d}" 1 ["src"; "a.txt"];
            Job "txt" "file_{:02d}" 2 ["src"; "b.txt"]]
           (Job "jpg" "img_{:02d" 1 ["src"; "c.jpg"]) [] ValueError).
  - reflexivity.
  - vm_compute. reflexivity.
  - repeat constructor; vm_compute; eauto.
  - reflexivity.
Defined.

(** The same run, read off: the two text files were copied before the
    pattern of [c.jpg] failed; their copies and their lines are there when
    the exception leaves [organize_files]. *)
Example format_failure_keeps_earlier_files :
  let r := organize_files (L := Posix.lib) broken_self ["src"] false false
             (World scenario_fs []) in
  r.1 = Raised ValueError /\
  stat scenario_fs ["out"; "file_01.txt"] = None /\
  stat (w_fs r.2) ["out"; "file_01.txt"] = Some (SFile "A") /\
  stat (w_fs r.2) ["out"; "file_02.txt"] = Some (SFile "B") /\
  w_out r.2 = [MsgCopied ["src"; "a.txt"] ["out"; "file_01.txt"];
               MsgCopied ["src"; "b.txt"] ["out"; "file_02.txt"]].
Proof. repeat split; vm_compute; reflexivity. Qed.

(** C2, counterexample. The files [r/sub/y.txt] and [r/sub.bak/x.txt]
    form one group.  The run numbers [r/sub/y.txt] first, as the component
    [sub] is below [sub.bak]; by the full path strings [r/sub.bak/x.txt]
    comes first, as the dot is below the separator. *)
Lemma path_string_order_counterexample :
  discover ["r"] (Dir nested_src) true
  = [("txt", [["r"; "sub"; "y.txt"]; ["r"; "sub.bak"; "x.txt"]])] /\
  map (fun j => (job_number j, job_source j))
    (group_jobs scenario_self
       ("txt", [["r"; "sub"; "y.txt"]; ["r"; "sub.bak"; "x.txt"]]))
  = [(1, ["r"; "sub"; "y.txt"]); (2, ["r"; "sub.bak"; "x.txt"])] /\
  enumerate 1
    (sort_by_full_path_string [["r"; "sub"; "y.txt"]; ["r"; "sub.bak"; "x.txt"]])
  = [(1, ["r"; "sub.bak"; "x.txt"]); (2, ["r"; "sub"; "y.txt"])] /\
  path_str ["r"; "sub.bak"; "x.txt"] = "r/sub.bak/x.txt" /\
  str_ltb "r/sub.bak/x.txt" "r/sub/y.txt" = true.
Proof. repeat split; vm_compute; reflexivity. Qed.

Lemma organize_files_missing_source_witness :
  path_exists scenario_fs ["nowhere"] = false /\
  organize_files (L := Posix.lib) scenario_self ["nowhere"] true true
    (World scenario_fs [])
  = (Returned ∅, World scenario_fs ([] ++ [MsgNoFolder ["nowhere"]])).
Proof.
  split; [reflexivity|].
  apply (organize_files_missing_source (L := Posix.lib) scenario_self
           ["nowhere"] true true (World scenario_fs [])).
  reflexivity.
Defined.

Lemma discovery_recursive_exactly_once_witness :
  exists d,
    _get_files_by_extension scenario_fs ["src"] true = inr d /\
    NoDup (group_keys d) /\
    NoDup (group_files d) /\
    groups_by_extension d /\
    forall q, q ∈ group_files d
              <-> exists rel, rel <> [] /\ q = ["src"] ++ rel /\
                              is_file scenario_fs q = true.
Proof.
  apply (discovery_recursive_exactly_once scenario_fs ["src"] scenario_src).
  - reflexivity.
  - solve_wf.
Defined.


(** Why the paths have to be plain.  With the target [src/out] and the
    pattern [../b], the destination of [src/a.txt] is [src/out/../b.txt]:
    as a list of components it is neither [src/b.txt] nor above it, yet
    the copy lands on [src/b.txt], a source file, and replaces its
    contents. *)
Example destination_through_parent_entry :
  let r := organize_files (L := Posix.lib) parent_self ["src"] false false
             (World parent_fs []) in
  destination (L := Posix.lib) parent_self
    (Job "txt" "../b" 1 ["src"; "a.txt"])
  = Some ["src"; "out"; ".."; "b.txt"] /\
  ~ ["src"; "out"; ".."; "b.txt"] `prefix_of` ["src"; "b.txt"] /\
  stat parent_fs ["src"; "b.txt"] = Some (SFile "B") /\
  stat (w_fs r.2) ["src"; "b.txt"] = Some (SFile "A") /\
  w_out r.2 = [MsgCopied ["src"; "a.txt"] ["src"; "out"; ".."; "b.txt"];
               MsgError ["src"; "b.txt"] SameFileError].
Proof.
  cbn zeta. split; [reflexivity|]. split; [intros [k Hk]; discriminate|].
  repeat split; vm_compute; reflexivity.
Qed.


Lemma copy_move_failures_contained_witness :
  exists out fs' msgs n,
    organize_files (L := Posix.lib) scenario_self ["src"] false false
      (World blocked_fs [])
    = (out, World fs' ([] ++ msgs)) /\
    map msg_source msgs
    = map (fun j => Some (job_source j))
        (take n (plan scenario_self (discover ["src"] (Dir scenario_src) false))) /\
    match out with
    | Returned counts =>
        n = length (plan scenario_self (discover ["src"] (Dir scenario_src) false)) /\
        forall ext, counts !! ext = count_entry (successes ext msgs)
    | Raised e =>
        exists j,
          plan scenario_self (discover ["src"] (Dir scenario_src) false) !! n
          = Some j /\
          format (Lib := Posix.lib) (job_pattern j) (job_number j) = inl e
    end.
Proof.
  apply (copy_move_failures_contained (L := Posix.lib) scenario_self ["src"]
           false false (World blocked_fs []) scenario_src).
  reflexivity.
Defined.

(** One copy fails and the two others succeed: the failure is printed,
    the batch goes on, and the result counts the successes only. *)
Example partial_failure_run :
  organize_files (L := Posix.lib) scenario_self ["src"] false false
    (World blocked_fs [])
  = (Returned {[ "txt" := 1; "jpg" := 1 ]},
     World (Dir [("src", Dir scenario_src);
                 ("out", Dir [("file_01.txt", Other); ("file_02.txt", File "B");
                              ("img_01.jpg", File "C")])])
       [MsgError ["src"; "a.txt"] SpecialFileError;
        MsgCopied ["src"; "b.txt"] ["out"; "file_02.txt"];
        MsgCopied ["src"; "c.jpg"] ["out"; "img_01.jpg"]]).
Proof. vm_compute. reflexivity. Qed.

Lemma organize_files_non_recursive_witness :
  (exists d,
     _get_files_by_extension scenario_fs ["src"] false = inr d /\
     forall q, q ∈ group_files d
               <-> exists nm, q = ["src"] ++ [nm] /\ is_file scenario_fs q = true) /\
  (exists out fs' msgs,
     organize_files (L := Posix.lib) scenario_self ["src"] false false
       (World scenario_fs [])
     = (out, World fs' ([] ++ msgs)) /\
     forall m q, m ∈ msgs -> msg_source m = Some q ->
                 exists nm, q = ["src"] ++ [nm] /\ is_file scenario_fs q = true).
Proof.
  apply (organize_files_non_recursive (L := Posix.lib) scenario_self ["src"]
           false (World scenario_fs []) scenario_src).
  - reflexivity.
  - solve_wf.
Defined.


(** The same lookup fails for neither spelling: a pattern registered as
    [JPG], [.jpg] or [jpg] is found for [A.JPG], [a.jpg] and [b.Jpg]
    alike, and a file of another extension gets the default pattern. *)
Example lookup_spellings :
  Forall (fun registered =>
    Forall (fun nm =>
      pattern_for (set_naming_pattern scenario_self registered "photo_{}")
        (extension_of_name nm) = "photo_{}")
      ["A.JPG"; "a.jpg"; "b.Jpg"])
    ["JPG"; ".jpg"; "jpg"; "..Jpg"] /\
  pattern_for (set_naming_pattern (Organizer ["out"] ∅ "file_{:02d}")
                 "jpg" "photo_{}")
    (extension_of_name "A.PNG") = "file_{:02d}".
Proof. split; [repeat constructor|reflexivity]. Qed.

Lemma naming_patterns_keys_normalized_witness :
  patterns_invariant
    (run_calls (L := Posix.lib)
       (Organizer ["out"] ∅ "file_{:02d}", World scenario_fs [])
       [SetNamingPattern "..JPG" "img_{:02d}"; SetDefaultPattern "doc_{}";
        OrganizeFiles ["src"] true false; SetNamingPattern "Txt" "note_{}"]).1.
Proof.
  apply (naming_patterns_keys_normalized (L := Posix.lib) ["out"]
           (World scenario_fs []) (Organizer ["out"] ∅ "file_{:02d}")
           (World scenario_fs [])).
  reflexivity.
Defined.

Lemma organize_files_source_is_file_witness :
  lookup_path scenario_fs ["src"; "a.txt"] = Some (File "A") /\
  organize_files (L := Posix.lib) scenario_self ["src"; "a.txt"] false false
    (World scenario_fs [])
  = (Raised NotADirectoryError, World scenario_fs []).
Proof.
  split; [reflexivity|].
  apply (organize_files_source_is_file (L := Posix.lib) scenario_self
           ["src"; "a.txt"] false false (World scenario_fs []) "A").
  reflexivity.
Defined.

(** The nested scenario: [r/x.png] and [r/sub/y.png] are one group,
    numbered 1 and 2. *)
Example nested_scenario_run :
  let fs := Dir [("r", Dir [("x.png", File "X"); ("sub", Dir [("y.png", File "Y")])]);
                 ("out", Dir [])] in
  let r := organize_files (L := Posix.lib) (Organizer ["out"] ∅ "file_{:02d}")
             ["r"] true false (World fs []) in
  r.1 = Returned {[ "png" := 2 ]} /\
  w_out r.2 = [MsgCopied ["r"; "sub"; "y.png"] ["out"; "file_01.png"];
               MsgCopied ["r"; "x.png"] ["out"; "file_02.png"]].
Proof. split; vm_compute; reflexivity. Qed.

(* ------------------------------------------------------------------ *)
(** ** Registering patterns *)

Lemma pattern_for_set self e p k :
  pattern_for (set_naming_pattern self e p) k
  = if String.eqb (normalize_extension e) k then p else pattern_for self k.
Proof.
  unfold pattern_for, set_naming_pattern, normalize_extension. simpl.
  destruct (String.eqb_spec (Str.lower (Str.lstrip "." e)) k) as [->|Hne].
  - by rewrite lookup_insert_eq.
  - by rewrite lookup_insert_ne.
Qed.

Lemma pattern_for_foldl_set pairs :
  forall self k,
    pattern_for
      (foldl (fun fsys ep => set_naming_pattern fsys ep.1 ep.2) self pairs) k
    = match last_registered k pairs with
      | Some p => p
      | None => pattern_for self k
      end.
Proof.
  induction pairs as [|[e p] pairs IH]; intros self k;
    cbn [foldl last_registered fst snd]; [reflexivity|].
  rewrite IH. destruct (last_registered k pairs); [reflexivity|].
  rewrite pattern_for_set.
  by destruct (String.eqb (normalize_extension e) k).
Qed.

(** X1. A second registration for the same extension, under any spelling
    of it, replaces the first: the organizer is the one the second
    registration alone gives. *)
Theorem set_naming_pattern_overwrites self e1 p1 e2 p2 :
  normalize_extension e1 = normalize_extension e2 ->
  set_naming_pattern (set_naming_pattern self e1 p1) e2 p2
  = set_naming_pattern self e2 p2.
Proof.
  unfold normalize_extension, set_naming_pattern. simpl. intros ->.
  by rewrite insert_insert_eq.
Qed.

(** X2. Registering a pattern for one extension leaves the pattern of
    every other extension, the default pattern and the target folder as
    they were. *)
Theorem set_naming_pattern_other_keys self e p k :
  k <> normalize_extension e ->
  pattern_for (set_naming_pattern self e p) k = pattern_for self k /\
  default_pattern (set_naming_pattern self e p) = default_pattern self /\
  folder_path (set_naming_pattern self e p) = folder_path self.
Proof.
  intros Hne. split; [|done]. rewrite pattern_for_set.
  destruct (String.eqb_spec (normalize_extension e) k); congruence.
Qed.

(** X3. The patterns [main] ends up with: for every extension the last
    [--pattern] pair given for it (under any spelling) wins; without
    one, a pattern the organizer already had; without that, the
    [--default] pattern when it is given and not empty, and otherwise the
    default the organizer had. *)
Theorem configure_pattern_for self args k :
  pattern_for (configure self args) k
  = match last_registered k (default [] (args_pattern args)) with
    | Some p => p
    | None =>
        match naming_patterns self !! k with
        | Some q => q
        | None =>
            match args_default args with
            | Some d => if String.eqb d "" then default_pattern self else d
            | None => default_pattern self
            end
        end
    end.
Proof.
  unfold configure.
  set (fsys := match args_default args with
               | Some pattern =>
                   if String.eqb pattern "" then self
                   else set_default_pattern self pattern
               | None => self
               end).
  assert (Hbase : pattern_for fsys k
            = match naming_patterns self !! k with
              | Some q => q
              | None =>
                  match args_default args with
                  | Some d => if String.eqb d "" then default_pattern self else d
                  | None => default_pattern self
                  end
              end).
  { unfold fsys, pattern_for. destruct (args_default args) as [d|];
      [destruct (String.eqb d "")|]; simpl;
      by destruct (naming_patterns self !! k). }
  destruct (args_pattern args) as [pairs|]; simpl.
  - rewrite pattern_for_foldl_set. by rewrite Hbase.
  - exact Hbase.
Qed.

Lemma set_naming_pattern_overwrites_witness :
  set_naming_pattern (set_naming_pattern scenario_self ".JPG" "a_{}") "jpg" "b_{}"
  = set_naming_pattern scenario_self "jpg" "b_{}".
Proof.
  apply (set_naming_pattern_overwrites scenario_self ".JPG" "a_{}" "jpg" "b_{}").
  reflexivity.
Defined.

Lemma set_naming_pattern_other_keys_witness :
  pattern_for (set_naming_pattern scenario_self "png" "p_{}") "jpg"
  = pattern_for scenario_self "jpg".
Proof.
  apply (set_naming_pattern_other_keys scenario_self "png" "p_{}" "jpg").
  discriminate.
Defined.

Example configure_scenario :
  let self := configure (Organizer ["new"; "out"] ∅ "file_{:02d}") scenario_args in
  pattern_for self "jpg" = "img_{:02d}" /\
  pattern_for self "txt" = "note_{:02d}" /\
  pattern_for self "png" = "doc_{:03d}".
Proof. repeat split; vm_compute; reflexivity. Qed.

(* ------------------------------------------------------------------ *)
(** ** The constructor and the target folder *)

Lemma lookup_make_chain p : lookup_path (make_chain p) p = Some (Dir []).
Proof.
  induction p as [|nm p IH]; simpl; [reflexivity|].
  by rewrite String.eqb_refl.
Qed.

Lemma assoc_app_eq nm new es :
  assoc nm es = None -> assoc nm (es ++ [(nm, new)]) = Some new.
Proof.
  induction es as [|[k n] es IH]; simpl.
  - by rewrite String.eqb_refl.
  - destruct (String.eqb k nm); [discriminate | exact IH].
Qed.

Lemma mkdir_parents_creates p :
  forall fs fs', mkdir_parents fs p = inr fs' ->
                 lookup_path fs' p = Some (Dir []).
Proof.
  induction p as [|nm p IH]; intros fs fs' Hmk; [discriminate|].
  simpl in Hmk. destruct fs as [|es|]; try discriminate.
  destruct (assoc nm es) as [c|] eqn:Hc.
  - destruct (mkdir_parents c p) as [e|c'] eqn:Hrec; [discriminate|].
    injection Hmk as <-. simpl. rewrite assoc_set_entry_eq. by apply (IH c).
  - injection Hmk as <-. simpl. rewrite (assoc_app_eq _ _ _ Hc).
    apply lookup_make_chain.
Qed.

Lemma mkdir_parents_frame p :
  forall fs fs' q,
    mkdir_parents fs p = inr fs' -> stat fs q <> None ->
    stat fs' q = stat fs q.
Proof.
  induction p as [|nm p IH]; intros fs fs' q Hmk Hq; [discriminate|].
  simpl in Hmk. destruct fs as [|es|]; try discriminate.
  destruct q as [|k q].
  { destruct (assoc nm es) as [c|]; [|by injection Hmk as <-].
    destruct (mkdir_parents c p); [discriminate | by injection Hmk as <-]. }
  rewrite stat_cons in Hq.
  destruct (assoc nm es) as [c|] eqn:Hc.
  - destruct (mkdir_parents c p) as [e|c'] eqn:Hrec; [discriminate|].
    injection Hmk as <-. rewrite !stat_cons.
    destruct (decide (k = nm)) as [->|Hne]; [|by rewrite assoc_set_entry_ne].
    rewrite assoc_set_entry_eq, Hc. rewrite Hc in Hq. by apply (IH c).
  - injection Hmk as <-. rewrite !stat_cons.
    destruct (decide (k = nm)) as [->|Hne]; [by rewrite Hc in Hq|].
    by rewrite assoc_app_ne.
Qed.



(** Something that is not a directory, strictly above the target, stops
    [mkdir] with [NotADirectoryError]; the target itself names nothing
    then. *)
Lemma mkdir_parents_blocked p :
  forall fs q k,
    q `prefix_of` p -> q <> p -> stat fs q = Some k -> k <> SDir ->
    lookup_path fs p = None /\ mkdir_parents fs p = inl NotADirectoryError.
Proof.
  induction p as [|nm p IH]; intros fs q k Hpre Hne Hq Hk.
  - apply prefix_nil_inv in Hpre. congruence.
  - destruct q as [|k0 q].
    + unfold stat in Hq. simpl in Hq.
      destruct fs as [data|es|]; [done| |done].
      injection Hq as <-. done.
    + assert (k0 = nm) as -> by (destruct Hpre as [r Hr]; by injection Hr).
      apply prefix_cons_inv_2 in Hpre.
      destruct fs as [data|es|]; try discriminate.
      rewrite stat_cons in Hq.
      simpl. destruct (assoc nm es) as [c|]; [|discriminate].
      destruct (IH c q k Hpre ltac:(congruence) Hq Hk) as [-> ->]. done.
Qed.

(** X4. When the constructor returns, the organizer has the given target,
    no registered pattern and the default pattern [file_{:02d}]; nothing
    is printed.  A target that exists (as a directory or not) leaves the
    file system as it is; a target that does not exist is an empty
    directory afterwards, and every path that existed before still names
    what it named. *)
Theorem init_makes_target folder w self w' :
  init folder w = (Returned self, w') ->
  self = Organizer folder ∅ "file_{:02d}" /\
  w_out w' = w_out w /\
  (if path_exists (w_fs w) folder then w_fs w' = w_fs w
   else lookup_path (w_fs w') folder = Some (Dir [])) /\
  forall q, stat (w_fs w) q <> None -> stat (w_fs w') q = stat (w_fs w) q.
Proof.
  unfold init, bind, get_fs, ret, shutil. simpl.
  destruct (path_exists (w_fs w) folder) eqn:Hex.
  - intros [= <- <-]. by destruct w.
  - destruct (mkdir_parents (w_fs w) folder) as [e|fs1] eqn:Hmk; simpl;
      [discriminate|].
    intros [= <- <-]. simpl. repeat split; try done.
    + by apply (mkdir_parents_creates _ _ _ Hmk).
    + intros q Hq. by apply (mkdir_parents_frame _ _ _ _ Hmk).
Qed.

(** X5. When a path strictly above the target names something that is
    not a directory (a regular file, say), the constructor raises
    [NotADirectoryError]: the target is found not to exist, [mkdir] is
    called and fails on that component.  The file system and the output
    are then as they were, and no organizer is built. *)
Theorem init_raises folder w q k :
  q `prefix_of` folder -> q <> folder ->
  stat (w_fs w) q = Some k -> k <> SDir ->
  init folder w = (Raised NotADirectoryError, w).
Proof.
  intros Hpre Hne Hq Hk.
  destruct (mkdir_parents_blocked folder (w_fs w) q k Hpre Hne Hq Hk)
    as [Hmiss Hmk].
  unfold init, bind, get_fs, ret, shutil, path_exists. simpl.
  rewrite Hmiss, Hmk. simpl. by destruct w.
Qed.

Section Main.
Context {L : Lib}.


(** X7. When the target does not exist and [mkdir] fails, [main] raises
    the exception of [mkdir] before anything is organized: no pattern is
    looked at, nothing is printed and the file system is as it was,
    whatever the source holds. *)
Theorem main_target_blocked args w e :
  path_exists (w_fs w) (args_target args) = false ->
  mkdir_parents (w_fs w) (args_target args) = inl e ->
  main args w = (Raised e, w).
Proof.
  intros Hex Hmk.
  unfold main, init, bind, get_fs, ret, shutil. simpl.
  rewrite Hex, Hmk. simpl. by destruct w.
Qed.

End Main.

Lemma init_makes_target_witness :
  exists self w',
    init ["new"; "out"] (World scenario_fs []) = (Returned self, w') /\
    lookup_path (w_fs w') ["new"; "out"] = Some (Dir []) /\
    stat (w_fs w') ["src"; "a.txt"] = Some (SFile "A").
Proof.
  eexists _, _. split; [reflexivity|].
  pose proof (init_makes_target ["new"; "out"] (World scenario_fs []) _ _
                eq_refl) as (_ & _ & Hnew & Hold).
  split; [exact Hnew|]. exact (Hold ["src"; "a.txt"] ltac:(discriminate)).
Defined.

Lemma init_raises_witness :
  init ["out"; "deep"] (World file_in_the_way_fs [])
  = (Raised NotADirectoryError, World file_in_the_way_fs []).
Proof.
  apply (init_raises ["out"; "deep"] (World file_in_the_way_fs [])
           ["out"] (SFile "not a folder")).
  - by exists ["deep"].
  - discriminate.
  - reflexivity.
  - discriminate.
Defined.


(** The source may be a folder above the target: it names nothing before
    the run, [main] creates it on the way to the target, and the run
    finds an existing folder without files.  No line is printed. *)
Example main_source_above_target :
  path_exists scenario_fs ["fresh"] = false /\
  path_exists scenario_fs ["fresh"; "out"] = false /\
  forall rec : bool,
    main (L := Posix.lib)
      (CliArgs ["fresh"; "out"] ["fresh"] None None false rec)
      (World scenario_fs [])
    = (Returned ∅,
       World (Dir [("src", Dir scenario_src); ("out", Dir []);
                   ("fresh", Dir [("out", Dir [])])]) []).
Proof.
  split; [reflexivity|]. split; [reflexivity|].
  intros []; vm_compute; reflexivity.
Qed.

Lemma main_target_blocked_witness :
  main (L := Posix.lib)
    (CliArgs ["out"; "deep"] ["src"] None None false false)
    (World file_in_the_way_fs [])
  = (Raised NotADirectoryError, World file_in_the_way_fs []).
Proof.
  exact (main_target_blocked (L := Posix.lib)
           (CliArgs ["out"; "deep"] ["src"] None None false false)
           (World file_in_the_way_fs []) NotADirectoryError eq_refl eq_refl).
Defined.

Example main_scenario :
  let r := main (L := Posix.lib) scenario_args (World scenario_fs []) in
  r.1 = Returned {[ "txt" := 2; "jpg" := 1 ]} /\
  w_out r.2 = [MsgCopied ["src"; "a.txt"] ["new"; "out"; "note_01.txt"];
               MsgCopied ["src"; "b.txt"] ["new"; "out"; "note_02.txt"];
               MsgCopied ["src"; "c.jpg"] ["new"; "out"; "img_01.jpg"]].
Proof. split; vm_compute; reflexivity. Qed.

(* ------------------------------------------------------------------ *)
(** ** The shape of suffixes and group keys *)

Lemma rfind_split ch s :
  forall i, Str.rfind ch s = Some i ->
  exists t, Str.drop i s = String ch t /\ Str.rfind ch t = None /\
            String.length s = i + 1 + String.length t.
Proof.
  induction s as [|c s IH]; intros i Hi; [discriminate|]. simpl in Hi.
  destruct (Str.rfind ch s) as [i'|] eqn:Hs.
  - injection Hi as <-. destruct (IH i' eq_refl) as (t & Hdrop & Ht & Hlen).
    exists t. simpl. rewrite Hlen. repeat split; try done.
  - destruct (Ascii.eqb_spec c ch) as [->|Hne]; [|discriminate].
    injection Hi as <-. exists s. simpl. repeat split; try done.
Qed.

Lemma suffix_shape nm :
  suffix_of_name nm = "" \/
  exists t, suffix_of_name nm = String "." t /\ t <> "" /\
            Str.rfind "." t = None.
Proof.
  unfold suffix_of_name.
  destruct (Str.rfind "." nm) as [i|] eqn:Hi; [|by left].
  destruct ((0 <? i)%nat && (i <? String.length nm - 1)%nat) eqn:Hrange;
    [|by left].
  right. destruct (rfind_split _ _ _ Hi) as (t & Hdrop & Ht & Hlen).
  exists t. split; [done|]. split; [|done].
  apply andb_true_iff in Hrange as [_ Hlt]. apply Nat.ltb_lt in Hlt.
  intros ->. simpl in Hlen. lia.
Qed.

Lemma extension_of_suffix nm :
  (suffix_of_name nm = "" /\ extension_of_name nm = "") \/
  exists t, suffix_of_name nm = String "." t /\ t <> "" /\
            Str.rfind "." t = None /\ extension_of_name nm = Str.lower t.
Proof.
  unfold extension_of_name.
  destruct (suffix_shape nm) as [->|(t & -> & Hne & Ht)]; [by left|].
  right. exists t. repeat split; try done.
  simpl. by rewrite lstrip_no_occurrence.
Qed.

Lemma extension_no_dot nm : Str.rfind "." (extension_of_name nm) = None.
Proof.
  destruct (extension_of_suffix nm) as [[_ ->]|(t & _ & _ & Ht & ->)];
    [done|]. by rewrite lower_rfind_dot.
Qed.







(** X8. A group key never holds a dot: the key of [a.tar.gz] is [gz].  So
    a pattern registered for an extension that still holds a dot after
    normalization, such as [tar.gz], is not used for any file. *)
Theorem dotted_extension_never_matches self e p nm :
  Str.rfind "." (normalize_extension e) <> None ->
  Str.rfind "." (extension_of_name nm) = None /\
  pattern_for (set_naming_pattern self e p) (extension_of_name nm)
  = pattern_for self (extension_of_name nm).
Proof.
  intros Hdot. split; [apply extension_no_dot|].
  rewrite pattern_for_set.
  destruct (String.eqb_spec (normalize_extension e) (extension_of_name nm))
    as [Heq|Hne]; [|done].
  exfalso. apply Hdot. rewrite Heq. apply extension_no_dot.
Qed.


Lemma dotted_extension_never_matches_witness :
  pattern_for (set_naming_pattern scenario_self "tar.gz" "archive_{}")
    (extension_of_name "backup.tar.gz")
  = pattern_for scenario_self (extension_of_name "backup.tar.gz").
Proof.
  exact (proj2 (dotted_extension_never_matches scenario_self "tar.gz"
                  "archive_{}" "backup.tar.gz" ltac:(discriminate))).
Defined.


(* ------------------------------------------------------------------ *)
(** ** More on discovery and on what a run touches *)

Lemma extend_group_nonempty ext files d :
  files <> [] ->
  Forall (fun g => g.2 <> []) d ->
  Forall (fun g : string * list path => g.2 <> []) (extend_group ext files d).
Proof.
  intros Hfiles Hd. induction d as [|[k fs] d IH]; simpl.
  - by repeat constructor.
  - apply Forall_cons in Hd as [Hk Hd].
    destruct (String.eqb k ext); constructor; simpl in *; auto.
    intros Happ. by apply app_eq_nil in Happ as [? _].
Qed.

Lemma merge_groups_nonempty sub :
  forall d,
    Forall (fun g => g.2 <> []) sub ->
    Forall (fun g => g.2 <> []) d ->
    Forall (fun g : string * list path => g.2 <> []) (merge_groups sub d).
Proof.
  induction sub as [|[ext files] sub IH]; intros d Hsub Hd; simpl; [done|].
  apply Forall_cons in Hsub as [Hfiles Hsub].
  apply IH; [done|]. by apply extend_group_nonempty.
Qed.

Lemma scan_files_nonempty folder es :
  forall d,
    Forall (fun g => g.2 <> []) d ->
    Forall (fun g : string * list path => g.2 <> []) (scan_files folder es d).
Proof.
  induction es as [|[nm c] es IH]; intros d Hd; simpl; [done|].
  destruct c; apply IH; [|done..]. by apply extend_group_nonempty.
Qed.

Lemma discover_nonempty n :
  forall folder rec,
    Forall (fun g : string * list path => g.2 <> []) (discover folder n rec).
Proof.
  induction n as [data| |es IH] using node_induction; intros folder rec;
    try constructor.
  rewrite discover_Dir. cbn zeta.
  pose proof (scan_files_nonempty folder es [] ltac:(constructor)) as Hscan.
  destruct rec; [|exact Hscan].
  revert Hscan. generalize (scan_files folder es []).
  induction IH as [|[nm c] es Hc _ IHes]; intros d Hd; cbn [foldl]; [done|].
  apply IHes. unfold visit_subfolder. cbn [fst snd] in *.
  destruct c; try done. by apply merge_groups_nonempty.
Qed.

(** X10. No group that discovery returns is empty, and every key is the
    lower-cased extension of a file of its group: it is lower case, holds
    no dot, and [set_naming_pattern] called with the key itself registers
    a pattern for exactly that group. *)
Theorem discovered_groups_have_files self root dir rec ext files p :
  (ext, files) ∈ discover root dir rec ->
  files <> [] /\
  Str.lower ext = ext /\
  Str.rfind "." ext = None /\
  pattern_for (set_naming_pattern self ext p) ext = p.
Proof.
  intros Hin.
  pose proof (discover_nonempty dir root rec) as Hne.
  destruct (discover_groups dir root rec) as [_ Hext].
  rewrite Forall_forall in Hne. unfold groups_by_extension in Hext.
  rewrite Forall_forall in Hext.
  specialize (Hne _ Hin). specialize (Hext _ Hin). simpl in *.
  destruct files as [|f files]; [done|].
  apply Forall_cons in Hext as [Hf _]. unfold extension in Hf.
  split; [done|].
  assert (Hlow : Str.lower ext = ext).
  { rewrite <- Hf. apply extension_of_name_normalized. }
  assert (Hdot : Str.rfind "." ext = None).
  { rewrite <- Hf. apply extension_no_dot. }
  split; [done|]. split; [done|].
  rewrite pattern_for_set. unfold normalize_extension.
  rewrite (lstrip_no_occurrence _ _ Hdot), Hlow.
  by rewrite String.eqb_refl.
Qed.

Section Untouched.
Context {L : Lib}.

(** X11. When discovery finds no regular file (none below the folder in
    recursive mode, none directly in it otherwise, whatever its
    subfolders hold), [organize_files] returns the empty map and prints
    and changes nothing. *)
Theorem organize_files_nothing_to_do self root (rec mv : bool) w es :
  lookup_path (w_fs w) root = Some (Dir es) ->
  (if rec then all_files root (Dir es) else files_here root es) = [] ->
  organize_files self root rec mv w = (Returned ∅, w).
Proof.
  intros Hroot Hnone. rewrite (organize_files_dir _ _ _ _ _ _ Hroot).
  assert (Hfiles : group_files (discover root (Dir es) rec) ≡ₚ []).
  { destruct rec.
    - by rewrite discover_files_recursive, Hnone.
    - by rewrite discover_files_flat, Hnone. }
  pose proof (plan_sources self (discover root (Dir es) rec)) as Hplan.
  rewrite Hfiles in Hplan. apply Permutation_nil_r in Hplan.
  destruct (plan self (discover root (Dir es) rec)); [|discriminate].
  by destruct w.
Qed.

(** Every line a run prints for a job is the error line of that job or
    the line of its success, with the destination the job was given. *)
Lemma run_jobs_messages self mv jobs :
  forall counts w,
  exists out fs' msgs,
    for_each jobs (run_job self mv) counts w
    = (out, World fs' (w_out w ++ msgs)) /\
    Forall (fun m =>
              exists j, j ∈ jobs /\
                ((exists e, m = MsgError (job_source j) e)
                 \/ exists d, destination self j = Some d /\
                              m = msg_done mv (job_source j) d)) msgs.
Proof.
  induction jobs as [|j jobs IH]; intros counts w.
  - exists (Returned counts), (w_fs w), []. rewrite app_nil_r.
    split; [by destruct w | constructor].
  - simpl. unfold bind. rewrite run_job_step.
    destruct (format (job_pattern j) (job_number j)) as [e|base] eqn:Hfmt.
    { exists (Raised e), (w_fs w), []. rewrite app_nil_r.
      split; [by destruct w | constructor]. }
    cbn zeta.
    destruct (transfer mv (w_fs w) (job_source j) _) as [[e|] fs1].
    + destruct (IH counts (World fs1 (w_out w ++ [MsgError (job_source j) e])))
        as (out & fs' & msgs & Hrun & Hmsgs).
      exists out, fs', (MsgError (job_source j) e :: msgs).
      rewrite Hrun. simpl. rewrite <- app_assoc. split; [done|].
      constructor.
      * exists j. split; [left | left; by exists e].
      * eapply Forall_impl; [exact Hmsgs|].
        intros m (j' & Hj' & Hm). exists j'. split; [by right | done].
    + match goal with
      | |- context [for_each jobs _ ?c ?w1] =>
          destruct (IH c w1) as (out & fs' & msgs & Hrun & Hmsgs)
      end.
      eexists out, fs', (_ :: msgs).
      rewrite Hrun. simpl. rewrite <- app_assoc. split; [reflexivity|].
      constructor.
      * exists j. split; [left|]. right. eexists. split; [|reflexivity].
        unfold destination. by rewrite Hfmt.
      * eapply Forall_impl; [exact Hmsgs|].
        intros m (j' & Hj' & Hm). exists j'. split; [by right | done].
Qed.

(** X12. Every success line of a run names a file of the plan and the
    destination computed for it, [folder_path / (pattern.format(i) +
    suffix)] with [i] its number in its group; a run in copy mode prints
    no move line and a run in move mode no copy line. *)
Theorem success_lines_name_destinations self root rec mv w es :
  lookup_path (w_fs w) root = Some (Dir es) ->
  exists out fs' msgs,
    organize_files self root rec mv w = (out, World fs' (w_out w ++ msgs)) /\
    forall m, m ∈ msgs -> msg_success m = true ->
      exists j d,
        j ∈ plan self (discover root (Dir es) rec) /\
        destination self j = Some d /\
        m = (if mv then MsgMoved (job_source j) d
             else MsgCopied (job_source j) d).
Proof.
  intros Hroot. rewrite (organize_files_dir _ _ _ _ _ _ Hroot).
  destruct (run_jobs_messages self mv
              (plan self (discover root (Dir es) rec)) ∅ w)
    as (out & fs' & msgs & Hrun & Hmsgs).
  exists out, fs', msgs. split; [exact Hrun|].
  intros m Hm Hok. rewrite Forall_forall in Hmsgs.
  destruct (Hmsgs m Hm) as (j & Hj & [[e ->]|(d & Hd & ->)]); [discriminate|].
  exists j, d. repeat split; try done.
Qed.

(** X13. A run changes nothing away from the files it handles, as long
    as the paths involved have no [..] component: a plain path that is
    neither at or below a destination of the plan nor, in move mode, at or
    below a source of the plan reads the same after the run as before,
    whether the run returns or raises, when the destinations of the plan
    (and in move mode its sources) are plain as well. *)
Theorem organize_files_leaves_other_paths `{!LibFrames L}
    self root rec mv w es q :
  lookup_path (w_fs w) root = Some (Dir es) ->
  plain q ->
  (forall j, j ∈ plan self (discover root (Dir es) rec) ->
     (mv = true -> plain (job_source j) /\ ~ job_source j `prefix_of` q) /\
     (forall d, destination self j = Some d ->
                plain d /\ ~ d `prefix_of` q)) ->
  stat (w_fs (organize_files self root rec mv w).2) q = stat (w_fs w) q.
Proof.
  intros Hroot Hpq Hq. rewrite (organize_files_dir _ _ _ _ _ _ Hroot).
  by apply run_jobs_frame.
Qed.

End Untouched.

Lemma discovered_groups_have_files_witness :
  [["src"; "b.txt"]; ["src"; "a.txt"]] <> [] /\
  Str.lower "txt" = "txt" /\
  Str.rfind "." "txt" = None /\
  pattern_for (set_naming_pattern scenario_self "txt" "t_{}") "txt" = "t_{}".
Proof.
  apply (discovered_groups_have_files scenario_self ["src"] (Dir scenario_src)
           false "txt" [["src"; "b.txt"]; ["src"; "a.txt"]] "t_{}").
  vm_compute. left.
Defined.

Lemma organize_files_nothing_to_do_witness :
  organize_files (L := Posix.lib) scenario_self ["r"] false true
    (World nested_fs [])
  = (Returned ∅, World nested_fs []).
Proof.
  apply (organize_files_nothing_to_do (L := Posix.lib) scenario_self ["r"]
           false true (World nested_fs []) nested_src); reflexivity.
Defined.

Lemma success_lines_name_destinations_witness :
  exists out fs' msgs,
    organize_files (L := Posix.lib) scenario_self ["src"] false false
      (World blocked_fs [])
    = (out, World fs' ([] ++ msgs)) /\
    forall m, m ∈ msgs -> msg_success m = true ->
      exists j d,
        j ∈ plan scenario_self (discover ["src"] (Dir scenario_src) false) /\
        destination (L := Posix.lib) scenario_self j = Some d /\
        m = MsgCopied (job_source j) d.
Proof.
  apply (success_lines_name_destinations (L := Posix.lib) scenario_self
           ["src"] false false (World blocked_fs []) scenario_src).
  reflexivity.
Defined.

Lemma organize_files_leaves_other_paths_witness :
  stat (w_fs (organize_files (L := Posix.lib) scenario_self ["src"] false true
                (World scenario_fs [])).2) ["src"; "sub"; "d.txt"]
  = stat scenario_fs ["src"; "sub"; "d.txt"].
Proof.
  apply (organize_files_leaves_other_paths (L := Posix.lib) scenario_self
           ["src"] false true (World scenario_fs []) scenario_src
           ["src"; "sub"; "d.txt"]).
  - reflexivity.
  - repeat constructor; discriminate.
  - intros j Hj. vm_compute in Hj. enum_elem Hj; split.
    all: try (intros _; split; [repeat constructor; discriminate|];
              intros [k Hk]; discriminate).
    all: intros d Hd; vm_compute in Hd; injection Hd as <-;
      (split; [repeat constructor; discriminate|]);
      intros [k Hk]; discriminate.
Defined.

(* ------------------------------------------------------------------ *)
(** ** Counts against group sizes *)

Lemma enumerate_length {A : Type} (l : list A) :
  forall k, length (enumerate k l) = length l.
Proof. induction l as [|x l IH]; intros k; simpl; [done|]. by rewrite IH. Qed.

Lemma jobs_of_ext_group self g ext :
  length (jobs_of_ext ext (group_jobs self g))
  = if String.eqb g.1 ext then length g.2 else 0.
Proof.
  unfold jobs_of_ext, group_jobs.
  rewrite <- (Permutation_length (sort_paths_Permutation g.2)).
  rewrite <- (enumerate_length (sort_paths g.2) 1).
  induction (enumerate 1 (sort_paths g.2)) as [|item l IH]; simpl.
  - by destruct (String.eqb g.1 ext).
  - destruct (String.eqb g.1 ext); simpl; [by rewrite IH | exact IH].
Qed.

Lemma plan_cons self g d : plan self (g :: d) = group_jobs self g ++ plan self d.
Proof. reflexivity. Qed.

Lemma jobs_of_ext_app ext l1 l2 :
  jobs_of_ext ext (l1 ++ l2) = jobs_of_ext ext l1 ++ jobs_of_ext ext l2.
Proof. apply List.filter_app. Qed.

Lemma jobs_of_ext_absent self d ext :
  ext ∉ group_keys d -> length (jobs_of_ext ext (plan self d)) = 0.
Proof.
  induction d as [|g d IH]; intros Hk; [done|].
  unfold group_keys in Hk. simpl in Hk.
  apply not_elem_of_cons in Hk as [Hne Hk].
  rewrite plan_cons, jobs_of_ext_app, length_app, jobs_of_ext_group.
  destruct (String.eqb_spec g.1 ext); [congruence|]. by rewrite IH.
Qed.

Lemma jobs_of_ext_present self d ext files :
  NoDup (group_keys d) -> (ext, files) ∈ d ->
  length (jobs_of_ext ext (plan self d)) = length files.
Proof.
  induction d as [|g d IH]; intros Hnd Hin.
  - by apply elem_of_nil in Hin.
  - unfold group_keys in Hnd. simpl in Hnd.
    apply NoDup_cons in Hnd as [Hg Hnd].
    rewrite plan_cons, jobs_of_ext_app, length_app, jobs_of_ext_group.
    apply elem_of_cons in Hin as [<-|Hin].
    + simpl. rewrite String.eqb_refl, jobs_of_ext_absent by done. lia.
    + destruct (String.eqb_spec g.1 ext) as [Heq|Hne].
      * exfalso. apply Hg. rewrite Heq. change (ext ∈ fst <$> d).
        apply list_elem_of_fmap. by exists (ext, files).
      * by rewrite IH.
Qed.

Lemma successes_le ext jobs :
  forall msgs,
    map msg_source msgs = map (fun j => Some (job_source j)) jobs ->
    Forall (fun j => extension (job_source j) = job_ext j) jobs ->
    successes ext msgs <= length (jobs_of_ext ext jobs).
Proof.
  induction jobs as [|j jobs IH]; intros [|m msgs] Hsrc Hext;
    try discriminate.
  - unfold successes. simpl. lia.
  - injection Hsrc as Hm Hsrc. apply Forall_cons in Hext as [Hj Hext].
    specialize (IH msgs Hsrc Hext).
    rewrite successes_cons, Hm, Hj. unfold jobs_of_ext in *. simpl.
    destruct (msg_success m); destruct (String.eqb (job_ext j) ext);
      simpl; lia.
Qed.

(** X14. The result map never reports an extension that discovery did not
    find, and never more files for an extension than its group holds;
    an entry is at least 1. *)
Theorem counts_within_groups {L : Lib} self root rec mv w es counts w' ext n :
  lookup_path (w_fs w) root = Some (Dir es) ->
  organize_files self root rec mv w = (Returned counts, w') ->
  counts !! ext = Some n ->
  exists files,
    (ext, files) ∈ discover root (Dir es) rec /\ 0 < n /\ n <= length files.
Proof.
  intros Hroot Hrun Hn.
  rewrite (organize_files_dir _ _ _ _ _ _ Hroot) in Hrun.
  set (d := discover root (Dir es) rec) in *.
  destruct (discover_groups (Dir es) root rec) as [Hkeys Hext].
  fold d in Hkeys, Hext.
  destruct (run_jobs_outcome self mv (plan self d) ∅ w (fun _ => 0))
    as (out & fs' & msgs & k & Hrun' & Hsrc & Hout).
  { by apply plan_extensions. }
  { intros x. apply lookup_empty. }
  rewrite Hrun in Hrun'. injection Hrun' as <- _.
  destruct Hout as [-> Hcounts]. rewrite firstn_all in Hsrc.
  rewrite Hcounts in Hn. simpl in Hn.
  pose proof (successes_le ext _ _ Hsrc (plan_extensions self d Hext)) as Hle.
  destruct (successes ext msgs) as [|s] eqn:Hs; [discriminate|].
  injection Hn as <-.
  destruct (decide (ext ∈ group_keys d)) as [Hin|Hout].
  - change (ext ∈ fst <$> d) in Hin.
    apply list_elem_of_fmap in Hin as ([ext' files] & -> & Hin).
    exists files. split; [done|]. split; [lia|].
    by rewrite <- (jobs_of_ext_present self d ext' files Hkeys Hin).
  - rewrite (jobs_of_ext_absent self d ext Hout) in Hle. lia.
Qed.

Lemma counts_within_groups_witness :
  exists files,
    (("txt" : string), files) ∈ discover ["src"] (Dir scenario_src) false /\
    0 < 1 /\ 1 <= length files.
Proof.
  apply (counts_within_groups (L := Posix.lib) scenario_self ["src"] false
           false (World blocked_fs []) scenario_src
           {[ "txt" := 1; "jpg" := 1 ]}
           (organize_files (L := Posix.lib) scenario_self ["src"] false false
              (World blocked_fs [])).2 "txt" 1).
  - reflexivity.
  - vm_compute. reflexivity.
  - vm_compute. reflexivity.
Defined.

(* ------------------------------------------------------------------ *)
(** ** Sorting the files of one folder *)

Lemma codes_append a b :
  Str.codes (String.append a b) = Str.codes a ++ Str.codes b.
Proof.
  unfold Str.codes. induction a as [|c a IH]; simpl; [done|]. by rewrite IH.
Qed.

Lemma lex_compare_common {A : Type} (cmp : A -> A -> comparison)
    `{!Order cmp} (pre x y : list A) :
  lex_compare cmp (pre ++ x) (pre ++ y) = lex_compare cmp x y.
Proof. induction pre as [|a pre IH]; simpl; [done|]. by rewrite cmp_refl. Qed.

Lemma str_append_assoc a b c :
  String.append (String.append a b) c = String.append a (String.append b c).
Proof.
  induction a as [|x a IH]; [reflexivity|].
  change (String x (String.append (String.append a b) c)
          = String x (String.append a (String.append b c))).
  by rewrite IH.
Qed.

Lemma path_str_snoc root :
  exists pre, forall nm, path_str (root ++ [nm]) = String.append pre nm.
Proof.
  unfold path_str. induction root as [|x root [pre IH]].
  - by exists "".
  - exists (String.append x (String.append "/" pre)). intros nm.
    simpl. destruct (root ++ [nm]) as [|y l] eqn:Hl.
    + by destruct root.
    + rewrite <- Hl, IH. by rewrite !str_append_assoc.
Qed.

Lemma path_ltb_children root a b :
  path_ltb (root ++ [a]) (root ++ [b])
  = path_str_ltb (root ++ [a]) (root ++ [b]).
Proof.
  unfold path_ltb, path_str_ltb, str_ltb, path_compare.
  rewrite (lex_compare_common str_compare). simpl.
  destruct (path_str_snoc root) as [pre Hpre]. rewrite !Hpre.
  unfold str_compare at 2. rewrite !codes_append.
  rewrite (lex_compare_common Nat.compare).
  fold (str_compare a b). by destruct (str_compare a b).
Qed.

Lemma insert_sorted_elem {A : Type} (ltb : A -> A -> bool) a l x :
  x ∈ insert_sorted ltb a l -> x = a \/ x ∈ l.
Proof.
  induction l as [|y l IH]; simpl.
  - intros ->%list_elem_of_singleton. by left.
  - destruct (ltb y a).
    + intros [->|Hin]%elem_of_cons; [right; left|].
      destruct (IH Hin) as [->|Hl]; [by left | right; by right].
    + intros [->|Hin]%elem_of_cons; [by left | by right].
Qed.

Lemma sort_by_elem {A : Type} (ltb : A -> A -> bool) l x :
  x ∈ sort_by ltb l -> x ∈ l.
Proof.
  induction l as [|a l IH]; simpl; [done|].
  intros [->|Hin]%insert_sorted_elem; [left | right; by apply IH].
Qed.

Lemma insert_sorted_agree {A : Type} (ltb1 ltb2 : A -> A -> bool) a l :
  (forall y, y ∈ l -> ltb1 y a = ltb2 y a) ->
  insert_sorted ltb1 a l = insert_sorted ltb2 a l.
Proof.
  induction l as [|y l IH]; intros Hagree; simpl; [done|].
  rewrite <- (Hagree y) by left.
  destruct (ltb1 y a); [|done]. f_equal. apply IH.
  intros z Hz. apply Hagree. by right.
Qed.

Lemma sort_by_agree {A : Type} (ltb1 ltb2 : A -> A -> bool) l :
  (forall x y, x ∈ l -> y ∈ l -> ltb1 x y = ltb2 x y) ->
  sort_by ltb1 l = sort_by ltb2 l.
Proof.
  induction l as [|a l IH]; intros Hagree; simpl; [done|].
  rewrite IH by (intros x y Hx Hy; apply Hagree; by right).
  apply insert_sorted_agree. intros y Hy. apply Hagree; [right | left].
  by apply (sort_by_elem ltb2).
Qed.

Lemma group_files_elem (d : groups) ext files f :
  (ext, files) ∈ d -> f ∈ files -> f ∈ group_files d.
Proof.
  unfold group_files. intros Hg Hf.
  apply list_elem_of_In, in_concat. exists files.
  split; [|by apply list_elem_of_In].
  apply in_map_iff. exists (ext, files). split; [done|].
  by apply list_elem_of_In.
Qed.

(** X15. Without [recursive] all files of a group lie in the same folder,
    and there the order [files.sort()] puts them in is also the order of
    their full path strings: the two orders can only part in recursive
    mode. *)
Theorem non_recursive_order_is_string_order root es ext files :
  (ext, files) ∈ discover root (Dir es) false ->
  sort_paths files = sort_by_full_path_string files.
Proof.
  intros Hg. unfold sort_paths, sort_by_full_path_string.
  apply sort_by_agree. intros x y Hx Hy.
  assert (Hchild : forall f, f ∈ files -> exists nm, f = root ++ [nm]).
  { intros f Hf. pose proof (group_files_elem _ _ _ _ Hg Hf) as Hin.
    rewrite discover_files_flat in Hin.
    apply elem_of_files_here in Hin as (nm & data & _ & ->). by exists nm. }
  destruct (Hchild x Hx) as [a ->]. destruct (Hchild y Hy) as [b ->].
  apply path_ltb_children.
Qed.

Lemma non_recursive_order_is_string_order_witness :
  sort_paths [["src"; "b.txt"]; ["src"; "a.txt"]]
  = sort_by_full_path_string [["src"; "b.txt"]; ["src"; "a.txt"]].
Proof.
  apply (non_recursive_order_is_string_order ["src"] scenario_src "txt").
  vm_compute. left.
Defined.

(* ------------------------------------------------------------------ *)
(** ** Each file once, and where it goes *)



Section Handled.
Context {L : Lib}.

(** X16. A run that returns has printed exactly one line for each regular
    file discovery reaches (below the source folder in recursive mode,
    directly in it otherwise): no file is left out and none is handled
    twice. *)
Theorem each_file_handled_once self root (rec mv : bool) w es counts w' :
  lookup_path (w_fs w) root = Some (Dir es) ->
  organize_files self root rec mv w = (Returned counts, w') ->
  exists msgs,
    w_out w' = w_out w ++ msgs /\
    map msg_source msgs
    ≡ₚ map Some (if rec then all_files root (Dir es) else files_here root es).
Proof.
  intros Hroot Hrun.
  rewrite (organize_files_dir _ _ _ _ _ _ Hroot) in Hrun.
  set (d := discover root (Dir es) rec) in *.
  destruct (run_jobs_outcome self mv (plan self d) ∅ w (fun _ => 0))
    as (out2 & fs2 & msgs2 & k & Hrun2 & Hsrc2 & Hout).
  { apply plan_extensions, discover_groups. }
  { intros x. apply lookup_empty. }
  rewrite Hrun in Hrun2. injection Hrun2 as <- ->.
  destruct Hout as [-> _]. rewrite firstn_all in Hsrc2.
  exists msgs2. split; [done|]. rewrite Hsrc2.
  rewrite <- (map_map job_source Some), plan_sources.
  apply Permutation_map. unfold d. destruct rec.
  - apply discover_files_recursive.
  - apply discover_files_flat.
Qed.


End Handled.

Lemma each_file_handled_once_witness :
  exists msgs,
    w_out (organize_files (L := Posix.lib) scenario_self ["src"] true false
             (World blocked_fs [])).2 = [] ++ msgs /\
    map msg_source msgs
    ≡ₚ map Some (all_files ["src"] (Dir scenario_src)).
Proof.
  apply (each_file_handled_once (L := Posix.lib) scenario_self ["src"] true
           false (World blocked_fs []) scenario_src
           {[ "txt" := 2; "jpg" := 1 ]}
           (organize_files (L := Posix.lib) scenario_self ["src"] true false
              (World blocked_fs [])).2).
  - reflexivity.
  - vm_compute. reflexivity.
Defined.


(** The name [..] is excluded for a reason: a pattern that formats to it,
    on a file without a suffix, gives a destination whose last component
    is the parent entry of the target folder. *)
Example parent_entry_destination :
  new_filename (L := Posix.lib) (Job "" ".." 1 ["src"; "README"])
  = Some ".." /\
  destination (L := Posix.lib) (Organizer ["out"] ∅ "..")
    (Job "" ".." 1 ["src"; "README"])
  = Some ["out"; ".."].
Proof. split; reflexivity. Qed.

(** A pattern that starts with the separator takes the destination out of
    the target folder, and one that holds a separator puts it in a
    subfolder of the target. *)
Example destinations_outside_target :
  destination (L := Posix.lib) (Organizer ["out"] ∅ "/tmp/x_{}")
    (Job "txt" "/tmp/x_{}" 1 ["src"; "a.txt"])
  = Some ["tmp"; "x_1.txt"] /\
  destination (L := Posix.lib) (Organizer ["out"] ∅ "by_ext/x_{}")
    (Job "txt" "by_ext/x_{}" 1 ["src"; "a.txt"])
  = Some ["out"; "by_ext"; "x_1.txt"].
Proof. split; reflexivity. Qed.
